(** * Streamr client: subscription and resend engine

    A shallow embedding of the parts of the client that the
    specification's testable properties talk about:

    - [validateOptions], [SubKey], [resend], [waitForResponse], the
      [Subscription] and [Subscriptions] classes (subscribe/unsubscribe
      coalescing through [pMemoize] and [pLimit]);
    - [Signer.signStreamMessage];
    - [MessageCreationUtil.hash] and [computeStreamPartition];
    - the legacy dispatcher, ordering tracker and verification handle,
      which only the unit tests of the repository exercise.

    The first half of the file holds the definitions, module by module;
    the second half holds the lemmas and theorems about them. *)

From stdpp Require Import gmap strings list fin_maps pretty sorting.
From Stdlib Require Import ZArith Lia Ascii.

Local Open Scope string_scope.
Local Open Scope list_scope.
Local Open Scope Z_scope.

(* ===================================================================== *)
(** * Part I: definitions                                                 *)
(* ===================================================================== *)

(** ** Errors and results

    A JavaScript [Error] carries a message and, for protocol errors, a
    [code] property. A function that may throw (or an async function
    whose promise may reject) returns a [result]. *)

Record JsError := mkError {
  message : string;
  code : option string;
}.

Inductive result (A : Type) : Type :=
| Ok (a : A)
| Throw (e : JsError).
Arguments Ok {A} a.
Arguments Throw {A} e.

Definition is_ok {A} (r : result A) : bool :=
  match r with Ok _ => true | Throw _ => false end.

#[global] Instance result_ret : MRet result := fun A a => Ok a.

#[global] Instance result_bind : MBind result := fun A B k r =>
  match r with
  | Ok a => k a
  | Throw e => Throw e
  end.

(** ** Protocol layer (streamr-client-protocol) *)

(** [MessageLayer.MessageRef]: the ordering key of a message. *)
Record MessageRef := mkRef {
  timestamp : Z;
  sequenceNumber : Z;
}.

(** [ControlMessage.TYPES]. *)
Inductive MsgType :=
| BroadcastMessage
| UnicastMessage
| SubscribeRequest
| SubscribeResponse
| UnsubscribeRequest
| UnsubscribeResponse
| ResendLastRequest
| ResendFromRequest
| ResendRangeRequest
| ResendResponseResending
| ResendResponseResent
| ResendResponseNoResend
| ErrorResponse.

#[global] Instance MsgType_eq_dec : EqDecision MsgType.
Proof. solve_decision. Defined.

#[global] Instance MessageRef_eq_dec : EqDecision MessageRef.
Proof. solve_decision. Defined.

(** Outbound requests, with the fields their constructors are given. *)
Record Request := mkRequest {
  req_type : MsgType;
  req_streamId : string;
  req_streamPartition : Z;
  req_requestId : string;
  req_sessionToken : string;
  req_numberLast : option Z;
  req_fromMsgRef : option MessageRef;
  req_toMsgRef : option MessageRef;
  req_publisherId : option string;
  req_msgChainId : option string;
}.

(** Inbound control messages: responses and error responses. Only an
    [ErrorResponse] carries [errorCode] and [errorMessage]. *)
Record Response := mkResponse {
  res_type : MsgType;
  res_requestId : string;
  res_errorCode : string;
  res_errorMessage : string;
}.

#[global] Instance Response_eq_dec : EqDecision Response.
Proof. solve_decision. Defined.

(** ** [validateOptions] and [SubKey] *)

(** The properties of an options object that the engine reads. A
    property that is absent (or [undefined]) is [None]. *)
Record Options := mkOptions {
  streamId : option string;
  streamPartition : option Z;
  last : option Z;
  from : option MessageRef;
  to : option MessageRef;
  publisherId : option string;
  msgChainId : option string;
}.

(** What a caller may pass as [optionsOrStreamId]. *)
Inductive OptionsArg :=
| ArgUndefined
| ArgNull
| ArgBool (b : bool)
| ArgNumber (n : Z)
| ArgString (s : string)
| ArgObject (o : Options)
| ArgFunction (src : string).

(** JavaScript truthiness of the argument ([!optionsOrStreamId]). *)
Definition truthy_arg (a : OptionsArg) : bool :=
  match a with
  | ArgUndefined | ArgNull => false
  | ArgBool b => b
  | ArgNumber n => negb (n =? 0)
  | ArgString s => negb (String.eqb s "")
  | ArgObject _ | ArgFunction _ => true
  end.

(** [!options.streamId]: an absent or empty stream id is falsy. *)
Definition truthy_string (s : option string) : bool :=
  match s with
  | Some s => negb (String.eqb s "")
  | None => false
  end.

(** Template-literal rendering of the argument in error messages. *)
Definition show_arg (a : OptionsArg) : string :=
  match a with
  | ArgUndefined => "undefined"
  | ArgNull => "null"
  | ArgBool true => "true"
  | ArgBool false => "false"
  | ArgNumber n => pretty n
  | ArgString s => s
  | ArgObject _ => "[object Object]"
  | ArgFunction src => src
  end.

Definition error (msg : string) : JsError := mkError msg None.

Definition validateOptions (optionsOrStreamId : OptionsArg) : result Options :=
  if negb (truthy_arg optionsOrStreamId) then
    Throw (error "options is required!")
  else
    options ←
      match optionsOrStreamId with
      | ArgString s =>
          Ok (mkOptions (Some s) (Some 0) None None None None None)
      | ArgObject o =>
          (* shallow copy: { streamPartition: 0, ...optionsOrStreamId } *)
          Ok (mkOptions (streamId o)
                (match streamPartition o with Some p => Some p | None => Some 0 end)
                (last o) (from o) (to o) (publisherId o) (msgChainId o))
      | _ =>
          Throw (error ("options must be an object! Given: " +:+ show_arg optionsOrStreamId))
      end;
    if negb (truthy_string (streamId options)) then
      Throw (error ("streamId must be set, given: " +:+ show_arg optionsOrStreamId))
    else
      Ok options.

(** Destructuring default [streamPartition = 0]. *)
Definition partition_of (o : Options) : Z := default 0 (streamPartition o).

(** [SubKey]: the key of a stream partition in the registry. *)
Definition SubKey (o : Options) : result string :=
  match streamId o with
  | None => Throw (error ("SubKey: invalid streamId: undefined " +:+ pretty (partition_of o)))
  | Some s => Ok (s +:+ "|" +:+ pretty (partition_of o))
  end.

(** ** Building a resend request: the body of [resend] up to the send *)

(** [options.last > 0]: an absent [last] compares false. *)
Definition last_positive (o : Options) : bool :=
  match last o with
  | Some n => 0 <? n
  | None => false
  end.

Definition resendRequest (requestId sessionToken : string) (o : Options)
  : result Request :=
  let sid := default "" (streamId o) in
  if last_positive o then
    Ok (mkRequest ResendLastRequest sid (partition_of o) requestId sessionToken
          (last o) None None None None)
  else
    match from o, to o with
    | Some f, None =>
        Ok (mkRequest ResendFromRequest sid (partition_of o) requestId sessionToken
              None (Some f) None (publisherId o) (msgChainId o))
    | Some f, Some t =>
        Ok (mkRequest ResendRangeRequest sid (partition_of o) requestId sessionToken
              None (Some f) (Some t) (publisherId o) (msgChainId o))
    | None, _ =>
        Throw (error "Can't _requestResend without resend options")
    end.

(** *** The options the specification calls invalid

    Options are invalid when they are missing, when they are neither a
    string nor an object, or when the stream id is absent. *)
Definition invalid_options (arg : OptionsArg) : bool :=
  match arg with
  | ArgUndefined | ArgNull => true
  | ArgBool _ | ArgNumber _ | ArgFunction _ => true
  | ArgString s => String.eqb s ""
  | ArgObject o => negb (truthy_string (streamId o))
  end.

(** The number of resend variants an options object names: [last], and
    [from] (alone or together with [to]). *)
Definition resend_variants (o : Options) : nat :=
  ((match last o with Some _ => 1 | None => 0 end)
   + (match from o with Some _ => 1 | None => 0 end))%nat.

(** ** The connection: an event emitter and the wire

    [client.connection] is an event emitter (eventemitter3 in the unit
    tests' connection mock): [on] appends a listener, [off] removes the
    listeners equal to the given function for that event, and [emit]
    calls the listeners that were registered when the emit started. *)

Inductive EventName :=
| EvMessage (t : MsgType)   (* connection.emit(message.type, message) *)
| EvConnected
| EvDisconnected
| EvError.

#[global] Instance EventName_eq_dec : EqDecision EventName.
Proof. solve_decision. Defined.

(** The two closures [waitForResponse] creates for a waiter. *)
Inductive HandlerKind := OnResponse | OnErrorResponse.

#[global] Instance HandlerKind_eq_dec : EqDecision HandlerKind.
Proof. solve_decision. Defined.

(** A listener is a closure of some waiter, or a function of another
    component (a message stream, the client's own handlers), which does
    not touch waiters. *)
Inductive Handler :=
| WaiterHandler (i : nat) (k : HandlerKind)
| Foreign (id : nat).

#[global] Instance Handler_eq_dec : EqDecision Handler.
Proof. solve_decision. Defined.

(** The promise returned by [waitForResponse]. *)
Inductive PromiseState :=
| Pending
| Resolved (res : Response)
| Rejected (e : JsError).

Record Waiter := mkWaiter {
  w_requestId : string;
  w_types : list MsgType;
  w_state : PromiseState;
}.

Record Connection := mkConnection {
  listeners : list (EventName * Handler);  (* in registration order *)
  waiters : list Waiter;                   (* waiter [i] is the [i]-th created *)
  sent : list Request;                     (* connection.send, oldest first *)
}.

Definition set_listeners (ls : list (EventName * Handler)) (c : Connection) : Connection :=
  mkConnection ls (waiters c) (sent c).

Definition set_waiters (ws : list Waiter) (c : Connection) : Connection :=
  mkConnection (listeners c) ws (sent c).

Definition on (ev : EventName) (h : Handler) (c : Connection) : Connection :=
  set_listeners (listeners c ++ [(ev, h)]) c.

Definition off (ev : EventName) (h : Handler) (c : Connection) : Connection :=
  set_listeners (filter (fun l => l ≠ (ev, h)) (listeners c)) c.

Definition send (request : Request) (c : Connection) : Connection :=
  mkConnection (listeners c) (waiters c) (sent c ++ [request]).

(** [resolve]/[reject]: a promise settles once. *)
Definition settle (i : nat) (s : PromiseState) (c : Connection) : Connection :=
  match waiters c !! i with
  | Some w =>
      match w_state w with
      | Pending => set_waiters (<[i := mkWaiter (w_requestId w) (w_types w) s]> (waiters c)) c
      | _ => c
      end
  | None => c
  end.

(** [cleanup]: remove the success handler from every expected type and
    the error handler from [ErrorResponse]. *)
Definition cleanup (i : nat) (types : list MsgType) (c : Connection) : Connection :=
  off (EvMessage ErrorResponse) (WaiterHandler i OnErrorResponse)
    (foldl (fun c t => off (EvMessage t) (WaiterHandler i OnResponse) c) c types).

(** Calling one listener with an inbound message. [onResponse] and
    [onErrorResponse] return at once unless the request ids agree. *)
Definition call (h : Handler) (res : Response) (c : Connection) : Connection :=
  match h with
  | Foreign _ => c
  | WaiterHandler i k =>
      match waiters c !! i with
      | None => c
      | Some w =>
          if decide (res_requestId res = w_requestId w) then
            let c' := cleanup i (w_types w) c in
            match k with
            | OnResponse => settle i (Resolved res) c'
            | OnErrorResponse =>
                settle i (Rejected (mkError (res_errorMessage res)
                                            (Some (res_errorCode res)))) c'
            end
          else c
      end
  end.

Definition handlers_of (ev : EventName) (ls : list (EventName * Handler)) : list Handler :=
  (filter (fun l => l.1 = ev) ls).*2.

(** [connection.emit(event, message)]: the listeners registered when
    the emit starts are called in registration order. *)
Definition emit (ev : EventName) (res : Response) (c : Connection) : Connection :=
  foldl (fun c h => call h res c) c (handlers_of ev (listeners c)).

(** [connection.emitMessage(message)] is [emit(message.type, message)]. *)
Definition emitMessage (res : Response) (c : Connection) : Connection :=
  emit (EvMessage (res_type res)) res c.

(** Inbound traffic: the messages arrive one after the other. *)
Definition deliver (msgs : list Response) (c : Connection) : Connection :=
  foldl (fun c m => emitMessage m c) c msgs.

Definition is_waiter_handler (h : Handler) : bool :=
  match h with
  | WaiterHandler _ _ => true
  | Foreign _ => false
  end.

(** A connection-level event ([connected], [disconnected]) is emitted
    without an argument. Foreign listeners leave the waiters alone; a
    closure of [waitForResponse] called without a message would throw a
    [TypeError] on [res.requestId], which propagates out of [emit]. *)
Definition emitEvent (ev : EventName) (c : Connection) : result Connection :=
  if existsb is_waiter_handler (handlers_of ev (listeners c)) then
    Throw (error "Cannot read property 'requestId' of undefined")
  else Ok c.

(** ** [PAIRS], [waitForResponse], [waitForRequestResponse] *)

Definition ResendResponses : list MsgType :=
  [ResendResponseResending; ResendResponseNoResend].

Definition PAIRS (t : MsgType) : option (list MsgType) :=
  match t with
  | SubscribeRequest => Some [SubscribeResponse]
  | UnsubscribeRequest => Some [UnsubscribeResponse]
  | ResendLastRequest => Some ResendResponses
  | ResendFromRequest => Some ResendResponses
  | ResendRangeRequest => Some ResendResponses
  | _ => None
  end.

(** [waitForResponse] creates the promise and registers its handlers;
    it returns the new waiter's index. *)
Definition waitForResponse (types : list MsgType) (requestId : string)
    (c : Connection) : nat * Connection :=
  let i := length (waiters c) in
  let c1 := set_waiters (waiters c ++ [mkWaiter requestId types Pending]) c in
  let c2 := foldl (fun c t => on (EvMessage t) (WaiterHandler i OnResponse) c) c1 types in
  (i, on (EvMessage ErrorResponse) (WaiterHandler i OnErrorResponse) c2).

(** [PAIRS.get] of a type that is not a request type is [undefined]:
    [types.forEach] then throws inside the promise executor, so the
    promise is rejected and nothing is registered. *)
Definition waitForRequestResponse (request : Request) (c : Connection)
    : nat * Connection :=
  match PAIRS (req_type request) with
  | Some types => waitForResponse types (req_requestId request) c
  | None =>
      (length (waiters c),
       set_waiters (waiters c ++
         [mkWaiter (req_requestId request) []
            (Rejected (error "Cannot read property 'forEach' of undefined"))]) c)
  end.

Definition waiter_state (i : nat) (c : Connection) : option PromiseState :=
  w_state <$> waiters c !! i.

(** *** Vocabulary for statements about waiters *)

(** The listeners of the connection that are closures of waiter [i]. *)
Definition handler_of (i : nat) (h : Handler) : bool :=
  match h with
  | WaiterHandler j _ => bool_decide (j = i)
  | Foreign _ => false
  end.

Definition owned_by (i : nat) (l : EventName * Handler) : bool := handler_of i l.2.

Definition listeners_of_waiter (i : nat) (c : Connection) : list (EventName * Handler) :=
  filter (fun l => owned_by i l) (listeners c).

(** What [waitForResponse] registers for waiter [i], in order. *)
Definition registered (i : nat) (types : list MsgType) : list (EventName * Handler) :=
  ((fun t => (EvMessage t, WaiterHandler i OnResponse)) <$> types)
    ++ [(EvMessage ErrorResponse, WaiterHandler i OnErrorResponse)].

(** An inbound message concerns a waiter when it carries the waiter's
    request id and is of an expected type or an [ErrorResponse]. *)
Definition relevant (types : list MsgType) (requestId : string) (m : Response) : bool :=
  bool_decide (res_requestId m = requestId)
  && bool_decide (res_type m ∈ types ∨ res_type m = ErrorResponse).

(** How a relevant message settles the promise. *)
Definition outcome_of (types : list MsgType) (m : Response) : PromiseState :=
  if bool_decide (res_type m ∈ types) then Resolved m
  else Rejected (mkError (res_errorMessage m) (Some (res_errorCode m))).

Definition first_relevant (types : list MsgType) (requestId : string)
    (msgs : list Response) : option Response :=
  List.find (relevant types requestId) msgs.

(** What each of the two closures settles the promise with. *)
Definition settled_by (k : HandlerKind) (res : Response) : PromiseState :=
  match k with
  | OnResponse => Resolved res
  | OnErrorResponse =>
      Rejected (mkError (res_errorMessage res) (Some (res_errorCode res)))
  end.

(** Every closure in the listener table belongs to an existing waiter
    and sits on an event that [waitForResponse] registers it for. *)
Definition wf_listener (c : Connection) (l : EventName * Handler) : bool :=
  match l.2 with
  | Foreign _ => true
  | WaiterHandler i OnResponse =>
      match waiters c !! i with
      | Some w => existsb (fun t => bool_decide (l.1 = EvMessage t)) (w_types w)
      | None => false
      end
  | WaiterHandler i OnErrorResponse =>
      match waiters c !! i with
      | Some w => bool_decide (l.1 = EvMessage ErrorResponse)
      | None => false
      end
  end.

Definition wf_conn (c : Connection) : bool := forallb (wf_listener c) (listeners c).

Definition empty_connection : Connection := mkConnection [] [] [].

(** A waiter that is still waiting: its promise is pending and exactly
    the listeners [waitForResponse] registered are in place. *)
Definition pending_waiter (i : nat) (rid : string) (types : list MsgType)
    (c : Connection) : Prop :=
  wf_conn c = true
  /\ waiters c !! i = Some (mkWaiter rid types Pending)
  /\ listeners_of_waiter i c = registered i types.

(** A waiter that is done: its promise is settled with [s] and none of
    its listeners is left on the connection. *)
Definition settled_waiter (i : nat) (rid : string) (types : list MsgType)
    (s : PromiseState) (c : Connection) : Prop :=
  wf_conn c = true
  /\ waiters c !! i = Some (mkWaiter rid types s)
  /\ s ≠ Pending
  /\ listeners_of_waiter i c = [].

(** ** The client: [subscribe], [unsubscribe], [Subscription], [Subscriptions] *)

(** What awaiting a promise yields: its value, its rejection, or nothing
    when it never settles. *)
Inductive settled (A : Type) : Type :=
| Fulfilled (a : A)
| Failed (e : JsError)
| Never.
Arguments Fulfilled {A} a.
Arguments Failed {A} e.
Arguments Never {A}.

(** Modelled from the spec: the [subscribed] and [unsubscribed] events of
    a Subscription handle. The emitter belongs to the legacy Subscription
    class, which is not under src/; per the state machine of the spec the
    events fire when the [SubscribeResponse], respectively the
    [UnsubscribeResponse], for the subscription's key arrives. *)
Inductive SubEvent := EvSubscribed | EvUnsubscribed.

#[global] Instance SubEvent_eq_dec : EqDecision SubEvent.
Proof. solve_decision. Defined.

(** The state of a [Subscription] object. The two [pMemoize] caches hold
    the value of the cached promise; [stalled] says that the [pLimit(1)]
    queue holds a task that never settles, so that nothing queued behind
    it ever runs; [aborted] is the abort controller's signal ([abort]
    itself, which also tears the open streams down, is not modelled);
    [emitted] is the event log described above. *)
Record Subscription := mkSubscription {
  sub_options : Options;
  sendSubscribe_cache : option Response;
  sendUnsubscribe_cache : option Response;
  streams : list nat;
  aborted : bool;
  stalled : bool;
  emitted : list SubEvent;
}.

Record Client := mkClient {
  connection : Connection;
  sessionToken : string;
  uuid_counter : nat;
  iterator_counter : nat;
  subscriptions : gmap string Subscription;
}.

Definition set_connection (c : Connection) (cl : Client) : Client :=
  mkClient c (sessionToken cl) (uuid_counter cl) (iterator_counter cl) (subscriptions cl).

Definition set_subscription (key : string) (sub : Subscription) (cl : Client) : Client :=
  mkClient (connection cl) (sessionToken cl) (uuid_counter cl) (iterator_counter cl)
           (<[key := sub]> (subscriptions cl)).

(** Modelled from the spec: [uuid(label)] of the utilities module, which
    is not under src/. Request ids are unique per client and come from a
    counter; the id carries the label. *)
Definition uuid (label : string) (n : nat) : string := label +:+ "." +:+ pretty n.

Definition next_uuid (label : string) (cl : Client) : string * Client :=
  (uuid label (uuid_counter cl),
   mkClient (connection cl) (sessionToken cl) (S (uuid_counter cl))
            (iterator_counter cl) (subscriptions cl)).

Definition AbortError : JsError := error "The operation was aborted. ".

(** [new SubscribeRequest({ streamId, streamPartition, sessionToken,
    requestId })] and its [UnsubscribeRequest] twin. *)
Definition subscribeRequest (o : Options) (requestId token : string) : Request :=
  mkRequest SubscribeRequest (default "" (streamId o)) (partition_of o) requestId token
            None None None None None.

Definition unsubscribeRequest (o : Options) (requestId token : string) : Request :=
  mkRequest UnsubscribeRequest (default "" (streamId o)) (partition_of o) requestId token
            None None None None None.

Section WithBroker.
(** The broker: the inbound messages that follow a request on the wire. *)
Variable broker : Request -> list Response.

(** The common tail of [subscribe], [unsubscribe] and [resend]:
    register the waiter, send, and await the response. *)
Definition request_response (request : Request) (cl : Client)
    : settled Response * Client :=
  let '(i, c1) := waitForRequestResponse request (connection cl) in
  let c2 := send request c1 in
  let c3 := deliver (broker request) c2 in
  (match waiter_state i c3 with
   | Some (Resolved r) => Fulfilled r
   | Some (Rejected e) => Failed e
   | _ => Never
   end, set_connection c3 cl).

Definition subscribe (o : Options) (cl : Client) : settled Response * Client :=
  let '(requestId, cl1) := next_uuid "sub" cl in
  request_response (subscribeRequest o requestId (sessionToken cl)) cl1.

Definition unsubscribe (o : Options) (cl : Client) : settled Response * Client :=
  let '(requestId, cl1) := next_uuid "unsub" cl in
  request_response (unsubscribeRequest o requestId (sessionToken cl)) cl1.

(** [resend]: the request id is given by the caller or generated. *)
Definition resend (requestId : option string) (o : Options) (cl : Client)
    : settled Response * Client :=
  let '(rid, cl1) :=
    match requestId with
    | Some rid => (rid, cl)
    | None => next_uuid "rs" cl
    end in
  match resendRequest rid (sessionToken cl) o with
  | Throw e => (Failed e, cl1)
  | Ok request => request_response request cl1
  end.
End WithBroker.

Module Subscription.
Section WithBroker.
Variable broker : Request -> list Response.

(** The constructor: empty caches, no streams, a fresh abort
    controller and an empty queue. *)
Definition new (o : Options) : Subscription :=
  mkSubscription o None None [] false false [].

Definition set_subscribe_cache (v : option Response) (s : Subscription) : Subscription :=
  mkSubscription (sub_options s) v (sendUnsubscribe_cache s) (streams s)
                 (aborted s) (stalled s) (emitted s).

Definition set_unsubscribe_cache (v : option Response) (s : Subscription) : Subscription :=
  mkSubscription (sub_options s) (sendSubscribe_cache s) v (streams s)
                 (aborted s) (stalled s) (emitted s).

Definition set_streams (its : list nat) (s : Subscription) : Subscription :=
  mkSubscription (sub_options s) (sendSubscribe_cache s) (sendUnsubscribe_cache s) its
                 (aborted s) (stalled s) (emitted s).

Definition stall (s : Subscription) : Subscription :=
  mkSubscription (sub_options s) (sendSubscribe_cache s) (sendUnsubscribe_cache s)
                 (streams s) (aborted s) true (emitted s).

(** Modelled from the spec: the subscription handle emits an event;
    the events emitted so far are kept in [emitted]. *)
Definition emit_event (e : SubEvent) (s : Subscription) : Subscription :=
  mkSubscription (sub_options s) (sendSubscribe_cache s) (sendUnsubscribe_cache s)
                 (streams s) (aborted s) (stalled s) (emitted s ++ [e]).

(** [pMemoize(sendSubscribe)]: a cached promise is returned as is; a
    new one is cached unless it rejects. The arrival of the response is
    where the handle's [subscribed] event fires. *)
Definition sendSubscribe (s : Subscription) (cl : Client)
    : settled Response * Subscription * Client :=
  match sendSubscribe_cache s with
  | Some r => (Fulfilled r, s, cl)
  | None =>
      let '(r, cl') := subscribe broker (sub_options s) cl in
      match r with
      | Fulfilled res =>
          (r, emit_event EvSubscribed (set_subscribe_cache (Some res) s), cl')
      | _ => (r, s, cl')
      end
  end.

(** [pMemoize(sendUnsubscribe)], likewise, with the [unsubscribed]
    event. *)
Definition sendUnsubscribe (s : Subscription) (cl : Client)
    : settled Response * Subscription * Client :=
  match sendUnsubscribe_cache s with
  | Some r => (Fulfilled r, s, cl)
  | None =>
      let '(r, cl') := unsubscribe broker (sub_options s) cl in
      match r with
      | Fulfilled res =>
          (r, emit_event EvUnsubscribed (set_unsubscribe_cache (Some res) s), cl')
      | _ => (r, s, cl')
      end
  end.

(** [iterate]: [messageStream] throws when the signal is aborted;
    otherwise a new iterator joins [streams]. The iterator is named by
    a fresh number; its message queue is not part of the model. *)
Definition iterate (s : Subscription) (cl : Client) : result nat * Subscription * Client :=
  if aborted s then (Throw AbortError, s, cl)
  else
    let it := iterator_counter cl in
    (Ok it, set_streams (streams s ++ [it]) s,
     mkClient (connection cl) (sessionToken cl) (uuid_counter cl) (S it)
              (subscriptions cl)).

(** The body of [subscribe], as the queue runs it. *)
Definition subscribe_task (s : Subscription) (cl : Client)
    : settled nat * Subscription * Client :=
  let s1 := set_unsubscribe_cache None s in      (* pMemoize.clear(this.sendUnsubscribe) *)
  let '(r, s2, cl2) := sendSubscribe s1 cl in
  match r with
  | Fulfilled _ =>
      let '(it, s3, cl3) := iterate s2 cl2 in
      (match it with Ok it => Fulfilled it | Throw e => Failed e end, s3, cl3)
  | Failed e => (Failed e, s2, cl2)
  | Never => (Never, stall s2, cl2)
  end.

(** The body of [unsubscribe]. *)
Definition unsubscribe_task (s : Subscription) (cl : Client)
    : settled unit * Subscription * Client :=
  let s1 := set_subscribe_cache None s in        (* pMemoize.clear(this.sendSubscribe) *)
  let '(r, s2, cl2) := sendUnsubscribe s1 cl in
  match r with
  | Fulfilled _ => (Fulfilled (), s2, cl2)
  | Failed e => (Failed e, s2, cl2)
  | Never => (Never, stall s2, cl2)
  end.

(** [this.queue(task)]: tasks run one at a time, in order; behind a
    task that never settles nothing runs. *)
Definition subscribe (s : Subscription) (cl : Client) :=
  if stalled s then (Never, s, cl) else subscribe_task s cl.

Definition unsubscribe (s : Subscription) (cl : Client) :=
  if stalled s then (Never, s, cl) else unsubscribe_task s cl.

(** [hasPending]: between two calls the queue is empty, unless it
    holds a task that never settles. *)
Definition hasPending (s : Subscription) : bool := stalled s.

Definition count (s : Subscription) : nat := length (streams s).

(** [return]: every open iterator is closed. Each [_cleanup] deletes
    its iterator from [streams]; the one that empties the set awaits
    [unsubscribe]. With no open iterator nothing happens. *)
Definition return_ (s : Subscription) (cl : Client)
    : settled unit * Subscription * Client :=
  match streams s with
  | [] => (Fulfilled (), s, cl)
  | _ :: _ => unsubscribe (set_streams [] s) cl
  end.
End WithBroker.
End Subscription.

Module Subscriptions.
Section WithBroker.
Variable broker : Request -> list Response.

Definition key_of (arg : OptionsArg) : result (Options * string) :=
  o ← validateOptions arg; key ← SubKey o; Ok (o, key).

Definition get (arg : OptionsArg) (cl : Client) : result (option Subscription) :=
  ok ← key_of arg; Ok (subscriptions cl !! ok.2).

Definition count (arg : OptionsArg) (cl : Client) : result nat :=
  sub ← get arg cl;
  Ok (match sub with Some s => Subscription.count s | None => 0%nat end).

(** The synchronous head of [subscribe]: validate the options, compute
    the key, and look the key's subscription up or create it. *)
Definition lookup_or_create (arg : OptionsArg) (cl : Client) : result string * Client :=
  match key_of arg with
  | Throw e => (Throw e, cl)
  | Ok (o, key) =>
      (Ok key,
       match subscriptions cl !! key with
       | Some _ => cl
       | None => set_subscription key (Subscription.new o) cl
       end)
  end.

(** [sub.subscribe()] on the subscription object that the map holds for
    the key. The branch without subscription is never reached after
    [lookup_or_create]. *)
Definition run_subscribe (key : string) (cl : Client) : settled nat * Client :=
  match subscriptions cl !! key with
  | Some sub =>
      let '(r, sub', cl') := Subscription.subscribe broker sub cl in
      (r, set_subscription key sub' cl')
  | None => (Never, cl)
  end.

(** [subscribe]: the subscription of the key is looked up or created,
    then its queued [subscribe] is awaited. *)
Definition subscribe (arg : OptionsArg) (cl : Client) : settled nat * Client :=
  match lookup_or_create arg cl with
  | (Throw e, cl') => (Failed e, cl')
  | (Ok key, cl') => run_subscribe key cl'
  end.

(** [unsubscribe]: waits for outstanding operations, then closes all
    streams of the key's subscription. *)
Definition unsubscribe (arg : OptionsArg) (cl : Client) : settled unit * Client :=
  match key_of arg with
  | Throw e => (Failed e, cl)
  | Ok (o, key) =>
      match subscriptions cl !! key with
      | None => (Fulfilled (), cl)
      | Some sub =>
          if Subscription.hasPending sub then (Never, cl)
          else
            let '(r, sub', cl') := Subscription.return_ broker sub cl in
            (r, set_subscription key sub' cl')
      end
  end.

(** Several logical subscribers, one call completed after the other. *)
Fixpoint subscribe_all (args : list OptionsArg) (cl : Client)
    : list (settled nat) * Client :=
  match args with
  | [] => ([], cl)
  | arg :: args =>
      let '(r, cl1) := subscribe arg cl in
      let '(rs, cl2) := subscribe_all args cl1 in
      (r :: rs, cl2)
  end.

(** Several logical subscribers calling [subscribe] in the same turn of
    the event loop, as the unit tests do: the synchronous heads run
    first, in call order; the queued bodies run afterwards, in the same
    order. *)
Fixpoint heads (args : list OptionsArg) (cl : Client) : list (result string) * Client :=
  match args with
  | [] => ([], cl)
  | arg :: args =>
      let '(k, cl1) := lookup_or_create arg cl in
      let '(ks, cl2) := heads args cl1 in
      (k :: ks, cl2)
  end.

Fixpoint bodies (keys : list (result string)) (cl : Client)
    : list (settled nat) * Client :=
  match keys with
  | [] => ([], cl)
  | k :: keys =>
      let '(r, cl1) :=
        match k with
        | Ok key => run_subscribe key cl
        | Throw e => (Failed e, cl)
        end in
      let '(rs, cl2) := bodies keys cl1 in
      (r :: rs, cl2)
  end.

Definition subscribe_concurrently (args : list OptionsArg) (cl : Client)
    : list (settled nat) * Client :=
  let '(keys, cl1) := heads args cl in bodies keys cl1.
End WithBroker.
End Subscriptions.

Definition new_client (token : string) : Client :=
  mkClient empty_connection token 0 0 ∅.

(** The broker of the unit tests ([mockSubscription]): it acknowledges
    every subscribe and unsubscribe request. *)
Definition mockBroker (request : Request) : list Response :=
  match req_type request with
  | SubscribeRequest => [mkResponse SubscribeResponse (req_requestId request) "" ""]
  | UnsubscribeRequest => [mkResponse UnsubscribeResponse (req_requestId request) "" ""]
  | _ => []
  end.

(** A broker acknowledges requests of type [t] when the first message
    that concerns the request is a response of an expected type. *)
Definition acknowledges (broker : Request -> list Response) (t : MsgType) : Prop :=
  forall request, req_type request = t ->
    exists types m,
      PAIRS t = Some types
      /\ first_relevant types (req_requestId request) (broker request) = Some m
      /\ res_type m ∈ types.

(** ** [Signer.signStreamMessage] *)

Record MessageID := mkMessageID {
  id_streamId : string;
  id_streamPartition : Z;
  id_timestamp : Z;
  id_sequenceNumber : Z;
  id_publisherId : string;
  id_msgChainId : string;
}.

(** [StreamMessage.SIGNATURE_TYPES]. *)
Definition SIGNATURE_NONE : Z := 0.
Definition SIGNATURE_ETH_LEGACY : Z := 1.
Definition SIGNATURE_ETH : Z := 2.

Record StreamMessage := mkStreamMessage {
  messageId : MessageID;
  prevMsgRef : option MessageRef;
  content : string;
  contentType : Z;
  encryptionType : Z;
  signatureType : Z;
  signature : option string;
}.

#[global] Instance MessageID_eq_dec : EqDecision MessageID.
Proof. solve_decision. Defined.

#[global] Instance StreamMessage_eq_dec : EqDecision StreamMessage.
Proof. solve_decision. Defined.

Definition msg_ref (m : StreamMessage) : MessageRef :=
  mkRef (id_timestamp (messageId m)) (id_sequenceNumber (messageId m)).

Definition lower_ascii (a : ascii) : ascii :=
  let n := nat_of_ascii a in
  if (65 <=? n)%nat && (n <=? 90)%nat then ascii_of_nat (n + 32) else a.

Fixpoint toLowerCase (s : string) : string :=
  match s with
  | EmptyString => EmptyString
  | String a s => String (lower_ascii a) (toLowerCase s)
  end.

(** Modelled from the spec: [getPayloadToSign] of the protocol library,
    which is not under src/. The payload is the concatenation of stream
    id, partition, timestamp, sequence number, lowercased publisher id,
    message chain id, the previous reference when there is one, and the
    serialized content; the Signer unit test builds the same string. *)
Definition getPayloadToSign (m : StreamMessage) : string :=
  let i := messageId m in
  id_streamId i +:+ pretty (id_streamPartition i) +:+ pretty (id_timestamp i)
    +:+ pretty (id_sequenceNumber i) +:+ toLowerCase (id_publisherId i)
    +:+ id_msgChainId i
    +:+ match prevMsgRef m with
        | Some r => pretty (timestamp r) +:+ pretty (sequenceNumber r)
        | None => ""
        end
    +:+ content m.

(** A signer built from a private key or a provider: its address and its
    signing function. *)
Record Signer := mkSigner {
  address : string;
  sign : string -> string;
}.

Module Signer.
Definition signData (signer : Signer) (data : string) (signatureType : Z)
    : result string :=
  if (signatureType =? SIGNATURE_ETH_LEGACY) || (signatureType =? SIGNATURE_ETH) then
    Ok (sign signer data)
  else
    Throw (error ("Unrecognized signature type: " +:+ pretty signatureType)).

Definition set_signatureType (t : Z) (m : StreamMessage) : StreamMessage :=
  mkStreamMessage (messageId m) (prevMsgRef m) (content m) (contentType m)
                  (encryptionType m) t (signature m).

Definition set_publisherId (p : string) (m : StreamMessage) : StreamMessage :=
  let i := messageId m in
  mkStreamMessage
    (mkMessageID (id_streamId i) (id_streamPartition i) (id_timestamp i)
                 (id_sequenceNumber i) p (id_msgChainId i))
    (prevMsgRef m) (content m) (contentType m) (encryptionType m)
    (signatureType m) (signature m).

Definition set_signature (s : option string) (m : StreamMessage) : StreamMessage :=
  mkStreamMessage (messageId m) (prevMsgRef m) (content m) (contentType m)
                  (encryptionType m) (signatureType m) s.

(** The message object is passed by reference and assigned to: the
    function returns its outcome together with the object afterwards. *)
Definition signStreamMessage (signer : Signer) (streamMessage : StreamMessage)
    (signatureType : Z) : result unit * StreamMessage :=
  if id_timestamp (messageId streamMessage) =? 0 then
    (Throw (error "Timestamp is required as part of the data to sign."), streamMessage)
  else
    let m1 := set_signatureType signatureType streamMessage in
    let m2 := set_publisherId (address signer) m1 in
    let payload := getPayloadToSign m2 in
    match signData signer payload signatureType with
    | Ok s => (Ok (), set_signature (Some s) m2)
    | Throw e => (Throw e, m2)
    end.

(** *** The constructor, [verifyStreamMessage] and [createSigner] *)

(** [options.privateKey] is a hex string, or key material of another
    type (bytes), which the constructor passes on as it is. *)
Inductive PrivateKey :=
| KeyString (s : string)
| KeyBytes (bytes : list Z).

(** An injected web3 provider, as far as the constructor reads it: the
    address of [getSigner()] and its [signMessage]. *)
Record Provider := mkProvider {
  provider_address : string;
  signMessage : string -> string;
}.

Record SignerOptions := mkSignerOptions {
  privateKey : option PrivateKey;
  provider : option Provider;
}.

(** The key when [options.privateKey] is truthy: an absent key and the
    empty string are falsy. *)
Definition given_key (k : option PrivateKey) : option PrivateKey :=
  match k with
  | Some (KeyString EmptyString) => None
  | other => other
  end.

(** [privateKey.slice(2)] for a string that starts with [0x]. *)
Definition strip_0x (k : PrivateKey) : PrivateKey :=
  match k with
  | KeyString (String "0"%char (String "x"%char rest)) => KeyString rest
  | _ => k
  end.

Definition dquote : string := String "034"%char EmptyString.

Section WithCrypto.
(** [ethers.utils.computeAddress], which throws on a key it rejects;
    [SigningUtil.sign] with a key that [computeAddress] accepted; and
    [SigningUtil.verify], which throws on a malformed signature. *)
Variable computeAddress : PrivateKey -> result string.
Variable SigningUtil_sign : string -> PrivateKey -> string.
Variable SigningUtil_verify : string -> string -> option string -> result bool.

Definition new (options : SignerOptions) : result Signer :=
  match given_key (privateKey options), provider options with
  | Some k, _ =>
      address ← computeAddress k;
      Ok (mkSigner address (fun d => SigningUtil_sign d (strip_0x k)))
  | None, Some p =>
      Ok (mkSigner (provider_address p) (signMessage p))
  | None, None =>
      Throw (error ("Need either " +:+ dquote +:+ "privateKey" +:+ dquote +:+ " or "
                    +:+ dquote +:+ "provider" +:+ dquote +:+ "."))
  end.

Definition verifyStreamMessage (msg : StreamMessage) : result bool :=
  SigningUtil_verify (id_publisherId (messageId msg)) (getPayloadToSign msg) (signature msg).

Definition createSigner (options : SignerOptions) (publishWithSignature : string)
    : result (option Signer) :=
  if String.eqb publishWithSignature "never" then Ok None
  else if String.eqb publishWithSignature "auto"
          && negb (bool_decide (is_Some (given_key (privateKey options))))
          && negb (bool_decide (is_Some (provider options))) then Ok None
  else if String.eqb publishWithSignature "auto"
          || String.eqb publishWithSignature "always" then
    signer ← new options; Ok (Some signer)
  else Throw (error ("Unknown parameter value: " +:+ publishWithSignature)).
End WithCrypto.
End Signer.

(** ** [MessageCreationUtil]: [hash] and [computeStreamPartition] *)

(** The property names every plain object inherits from
    [Object.prototype]. *)
Definition objectPrototype : list string :=
  ["constructor"; "__defineGetter__"; "__defineSetter__"; "hasOwnProperty";
   "__lookupGetter__"; "__lookupSetter__"; "isPrototypeOf";
   "propertyIsEnumerable"; "toString"; "valueOf"; "__proto__"; "toLocaleString"].

(** What [this.cachedHashes[key]] can evaluate to: a digest stored by
    [hash], or a member of [Object.prototype]. *)
Inductive CachedValue :=
| Digest (bytes : list Z)
| Inherited (name : string).

(** Property lookup on the plain object [cachedHashes = {}]: own
    properties first, then the prototype; [None] is [undefined]. *)
Definition get_property (own : gmap string (list Z)) (name : string) : option CachedValue :=
  match own !! name with
  | Some d => Some (Digest d)
  | None => if bool_decide (name ∈ objectPrototype) then Some (Inherited name) else None
  end.

(** [Buffer.readInt32LE()]: the first four bytes, little endian, as a
    signed 32-bit integer; a shorter buffer is out of range. *)
Definition readInt32LE (bytes : list Z) : option Z :=
  match bytes with
  | b0 :: b1 :: b2 :: b3 :: _ =>
      let u := b0 + b1 * 2^8 + b2 * 2^16 + b3 * 2^24 in
      Some (if u <? 2^31 then u else u - 2^32)
  | _ => None
  end.

Section MessageCreationUtil.
(** [crypto.createHash('md5').update(s).digest()]. *)
Variable md5 : string -> list Z.

Definition hash (stringToHash : string) (cachedHashes : gmap string (list Z))
    : CachedValue * gmap string (list Z) :=
  match get_property cachedHashes stringToHash with
  | None =>
      let d := md5 stringToHash in
      (Digest d, <[stringToHash := d]> cachedHashes)
  | Some v => (v, cachedHashes)
  end.

(** [partitionCount] is [None] when it is [undefined], [null] or
    [NaN]; [partitionKey] is [None] when no key is given. [rnd] is the
    draw of [Math.random()] as a multiple of [2^-53]; the product with
    [partitionCount] is taken exactly. *)
Definition computeStreamPartition (partitionCount : option Z)
    (partitionKey : option string) (rnd : Z) (cachedHashes : gmap string (list Z))
    : result Z * gmap string (list Z) :=
  match partitionCount with
  | None | Some 0 => (Throw (error "partitionCount is falsey!"), cachedHashes)
  | Some n =>
      if n =? 1 then (Ok 0, cachedHashes)
      else if truthy_string partitionKey then
        let '(buffer, cache') := hash (default "" partitionKey) cachedHashes in
        match buffer with
        | Digest bytes =>
            match readInt32LE bytes with
            | Some intHash => (Ok (Z.rem (Z.abs intHash) n), cache')
            | None => (Throw (error "Attempt to access memory outside buffer bounds"), cache')
            end
        | Inherited _ =>
            (Throw (error "buffer.readInt32LE is not a function"), cache')
        end
      else (Ok (rnd * n / 2^53), cachedHashes)
  end.
End MessageCreationUtil.

(** ** The legacy dispatcher

    The dispatcher, the ordering tracker and the verification handle
    belong to the legacy client classes ([StreamrClient], [Subscription],
    [CombinedSubscription]), of which only the unit tests are under src/.
    They are modelled from the specification, with the unit tests as
    the reference for concrete scenarios. *)

Module Verifier.
(** Modelled from the spec: the MessageVerifier and the per-delivery
    verification handle (built in the legacy [StreamrClient] message
    handlers, not under src/). [verify] starts one cryptographic
    check and returns a new promise; the handle made for a delivered
    message memoizes the promise of its first call. Promises are
    named by numbers: equal numbers are the identical object. *)
Record Verifier := mkVerifier {
  invocations : nat;     (* cryptographic verifications started so far *)
  next_promise : nat;
}.

(** Modelled from the spec: [verify(msg)] starts a signature check and
    returns its promise, a new object at every invocation. *)
Definition verify (v : Verifier) : nat * Verifier :=
  (next_promise v, mkVerifier (S (invocations v)) (S (next_promise v))).

(** Modelled from the spec: the handle ([verifyFn]) handed to every
    subscription's delivery path; [None] until the first call. *)
Definition Handle := option nat.

(** Modelled from the spec: the handle made for a delivery has not
    been called yet. *)
Definition new_handle : Handle := None.

(** Modelled from the spec: a call of the handle returns the memoized
    promise, or invokes the verifier and memoizes its promise. *)
Definition verifyFn (h : Handle) (v : Verifier) : nat * Handle * Verifier :=
  match h with
  | Some p => (p, h, v)
  | None => let '(p, v') := verify v in (p, Some p, v')
  end.

(** Modelled from the spec: a subscription's delivery path calls the
    handle some number of times and observes the results. *)
Fixpoint call_times (k : nat) (h : Handle) (v : Verifier)
    : list nat * Handle * Verifier :=
  match k with
  | O => ([], h, v)
  | S k =>
      let '(p, h1, v1) := verifyFn h v in
      let '(ps, h2, v2) := call_times k h1 v1 in
      (p :: ps, h2, v2)
  end.

(** Modelled from the spec: fan-out of one delivered message to the
    subscriptions it is routed to; [calls] gives, per subscription,
    how often its handler calls the handle. All of them get the same
    handle. *)
Fixpoint fan_out (calls : list nat) (h : Handle) (v : Verifier)
    : list (list nat) * Handle * Verifier :=
  match calls with
  | [] => ([], h, v)
  | k :: calls =>
      let '(ps, h1, v1) := call_times k h v in
      let '(pss, h2, v2) := fan_out calls h1 v1 in
      (ps :: pss, h2, v2)
  end.

(** Modelled from the spec: the dispatcher makes one handle per
    delivered message ([BroadcastMessage] or [UnicastMessage]). *)
Definition deliver (calls : list nat) (v : Verifier) : list (list nat) * Verifier :=
  let '(pss, _, v') := fan_out calls new_handle v in (pss, v').
End Verifier.

Module Ordering.
(** Modelled from the spec: the total order of [MessageRef], by
    lexicographic comparison of timestamp and sequence number. *)
Definition ref_ltb (a b : MessageRef) : bool :=
  (timestamp a <? timestamp b)
  || ((timestamp a =? timestamp b) && (sequenceNumber a <? sequenceNumber b)).

(** Modelled from the spec: the reflexive order, for rule 3 of the
    tracker. *)
Definition ref_leb (a b : MessageRef) : bool :=
  ref_ltb a b || bool_decide (a = b).

(** Modelled from the spec: [successor] increments the sequence number
    by one, keeping the timestamp. *)
Definition successor (r : MessageRef) : MessageRef :=
  mkRef (timestamp r) (sequenceNumber r + 1).

(** Modelled from the spec: [predecessor] decrements the sequence
    number by one, keeping the timestamp. *)
Definition predecessor (r : MessageRef) : MessageRef :=
  mkRef (timestamp r) (sequenceNumber r - 1).

(** Modelled from the spec: what the tracker tells the subscription,
    a delivery or a [gap] event. *)
Inductive Output :=
| Delivered (m : StreamMessage)
| Gap (from to : MessageRef) (publisherId msgChainId : string).

#[global] Instance Output_eq_dec : EqDecision Output.
Proof. solve_decision. Defined.

(** Modelled from the spec: the OrderingTracker of one chain (in the
    legacy [Subscription] classes, not under src/). Rules 1 to 4 of the
    spec, in order. The end of the gap is the previous-message
    reference of the message that revealed it, which is what the
    repository's CombinedSubscription test asserts ([from = (1,1)],
    [to = (3,0)] for a message whose previous reference is [(3,0)])
    and what scenario S4 of the spec expects. A message without
    previous reference that is neither first nor out of date is
    delivered without a gap event, since no range can be named. *)
Definition on_message (m : StreamMessage) (lastRef : option MessageRef)
    : option MessageRef * list Output :=
  match lastRef with
  | None => (Some (msg_ref m), [Delivered m])
  | Some last =>
      if bool_decide (prevMsgRef m = Some last) then
        (Some (msg_ref m), [Delivered m])
      else if ref_leb (msg_ref m) last then
        (lastRef, [])
      else
        (Some (msg_ref m),
         Delivered m ::
           match prevMsgRef m with
           | Some prev =>
               [Gap (successor last) prev
                    (id_publisherId (messageId m)) (id_msgChainId (messageId m))]
           | None => []
           end)
  end.

(** Modelled from the spec: the tracker over a sequence of messages of
    one chain. *)
Fixpoint on_messages (ms : list StreamMessage) (lastRef : option MessageRef)
    : option MessageRef * list Output :=
  match ms with
  | [] => (lastRef, [])
  | m :: ms =>
      let '(l1, out1) := on_message m lastRef in
      let '(l2, out2) := on_messages ms l1 in
      (l2, out1 ++ out2)
  end.

(** Modelled from the spec: the gap-fill bookkeeping of a subscription
    (legacy [StreamrClient] gap handler, not under src/): the chains
    with a gap fill in flight, and the resend requests issued. At most
    one gap fill is outstanding per chain. *)
Record GapFiller := mkGapFiller {
  in_progress : list (string * string);
  issued : list Request;
}.

(** Modelled from the spec: the [ResendRangeRequest] that fills a gap,
    scoped by range, publisher and chain. *)
Definition rangeRequest (sid : string) (partition : Z) (requestId token : string)
    (from to : MessageRef) (publisherId msgChainId : string) : Request :=
  mkRequest ResendRangeRequest sid partition requestId token None
            (Some from) (Some to) (Some publisherId) (Some msgChainId).

(** Modelled from the spec: the subscription's reaction to a [gap]
    event. *)
Definition on_gap (sid : string) (partition : Z) (requestId token : string)
    (o : Output) (g : GapFiller) : GapFiller :=
  match o with
  | Delivered _ => g
  | Gap from to publisherId msgChainId =>
      if bool_decide ((publisherId, msgChainId) ∈ in_progress g) then g
      else
        mkGapFiller (in_progress g ++ [(publisherId, msgChainId)])
                    (issued g ++ [rangeRequest sid partition requestId token
                                               from to publisherId msgChainId])
  end.

(** Modelled from the spec: the gap fill of a chain completes. *)
Definition on_gap_filled (publisherId msgChainId : string) (g : GapFiller) : GapFiller :=
  mkGapFiller (filter (fun k => k ≠ (publisherId, msgChainId)) (in_progress g))
              (issued g).
End Ordering.

Module Dispatcher.
(** Modelled from the spec: the states of a Subscription. *)
Inductive SubState :=
| SPending | SSubscribing | SSubscribed | SResending | SResendDone
| SUnsubscribing | SUnsubscribed | SError.

(** Modelled from the spec: what the dispatcher needs of a legacy
    Subscription (class not under src/): its state, the request ids of
    its pending resends, and the resent messages handed to its
    delivery path so far. *)
Record Sub := mkSub {
  sub_id : nat;
  sub_state : SubState;
  pending_resends : list string;
  handled : list (string * StreamMessage);   (* handleResentMessage calls *)
}.

(** Modelled from the spec: the registry's subscriptions and the
    client-level [error] events emitted so far. *)
Record LegacyClient := mkDispatcher {
  subs : list Sub;
  errors : list JsError;                     (* client-level 'error' events *)
}.

(** Modelled from the spec: [UnicastMessage{requestId, streamMessage}]. *)
Record Unicast := mkUnicast {
  u_requestId : string;
  u_streamMessage : StreamMessage;
}.

(** Modelled from the spec: the subscription has a pending resend with
    this request id. *)
Definition awaits (requestId : string) (s : Sub) : bool :=
  bool_decide (requestId ∈ pending_resends s).

(** Modelled from the spec: the delivery path of a subscription for a
    resent message; the unit test observes its calls. *)
Definition handleResentMessage (u : Unicast) (s : Sub) : Sub :=
  mkSub (sub_id s) (sub_state s) (pending_resends s)
        (handled s ++ [(u_requestId u, u_streamMessage u)]).

Section WithSerialize.
(** [msg.serialize()] of the protocol library. *)
Variable serialize : Unicast -> string.

(** Modelled from the spec: the protocol error for an unexpected
    unicast, with the message the unit test expects. *)
Definition unexpected (u : Unicast) : JsError :=
  error ("Received unexpected UnicastMessage message " +:+ serialize u).

(** Modelled from the spec: routing of an inbound [UnicastMessage]
    (legacy [StreamrClient] handler, not under src/). The message
    goes to the subscription with a pending resend of that request
    id; without one, a client-level error is emitted and the message
    is dropped. *)
Definition on_unicast (u : Unicast) (c : LegacyClient) : LegacyClient :=
  if existsb (awaits (u_requestId u)) (subs c) then
    mkDispatcher
      ((fun s => if awaits (u_requestId u) s then handleResentMessage u s else s)
         <$> subs c)
      (errors c)
  else
    mkDispatcher (subs c) (errors c ++ [unexpected u]).
End WithSerialize.
End Dispatcher.

(** *** Vocabulary for statements about subscriptions *)

(** What awaiting the response to a request yields, given the inbound
    messages that follow it. *)
Definition reply_of (types : list MsgType) (requestId : string)
    (msgs : list Response) : settled Response :=
  match first_relevant types requestId msgs with
  | Some m =>
      if bool_decide (res_type m ∈ types) then Fulfilled m
      else Failed (mkError (res_errorMessage m) (Some (res_errorCode m)))
  | None => Never
  end.

(** The key's subscription is subscribed and idle: the subscribe
    response is cached, no unsubscribe is cached, and its queue and
    abort signal are clear. *)
Definition subscribed_at (key : string) (cl : Client) : Prop :=
  exists sub r,
    subscriptions cl !! key = Some sub
    /\ sendSubscribe_cache sub = Some r
    /\ sendUnsubscribe_cache sub = None
    /\ stalled sub = false
    /\ aborted sub = false.

(** The options name the stream partition [key]. *)
Definition names_key (key : string) (arg : OptionsArg) : Prop :=
  exists o, Subscriptions.key_of arg = Ok (o, key).

(** The cache holds digests of its keys only, as [hash] fills it. *)
Definition cache_ok (md5 : string -> list Z) (cachedHashes : gmap string (list Z)) : Prop :=
  forall k d, cachedHashes !! k = Some d -> d = md5 k.

(** ** Characters of keys

    The registry key of [SubKey] and the chain key of
    [createMsgIdAndPrevRef] both end in the decimal rendering of the
    stream partition. *)

(** A character of a decimal rendering: a digit or the minus sign. *)
Definition numeric_char (a : ascii) : bool :=
  bool_decide (a ∈ ["0"; "1"; "2"; "3"; "4"; "5"; "6"; "7"; "8"; "9"; "-"]%char).

Fixpoint numeric (s : string) : bool :=
  match s with
  | EmptyString => true
  | String a s => numeric_char a && numeric s
  end.

Fixpoint last_char (s : string) : option ascii :=
  match s with
  | EmptyString => None
  | String a s' =>
      match s' with
      | EmptyString => Some a
      | String _ _ => last_char s'
      end
  end.

Definition ends_numeric (s : string) : bool :=
  match last_char s with
  | Some a => numeric_char a
  | None => false
  end.

(** ** [getIsMatchingStreamMessage] *)

(** The filter of a message stream: stream id and partition of the
    message are compared with [!==]; the partition of the options
    defaults to 0. *)
Definition getIsMatchingStreamMessage (o : Options) (streamMessage : StreamMessage) : bool :=
  let msgStreamId := id_streamId (messageId streamMessage) in
  if negb (bool_decide (streamId o = Some msgStreamId)) then false
  else
    let msgPartition := id_streamPartition (messageId streamMessage) in
    if negb (bool_decide (partition_of o = msgPartition)) then false
    else true.

(** ** Vocabulary for statements about the wire *)

(** A broker refuses requests of type [t] when the first message that
    concerns the request is an [ErrorResponse]. *)
Definition refuses (broker : Request -> list Response) (t : MsgType) : Prop :=
  forall request, req_type request = t ->
    exists types m,
      PAIRS t = Some types
      /\ first_relevant types (req_requestId request) (broker request) = Some m
      /\ res_type m = ErrorResponse.

(** A broker is silent on requests of type [t] when no message that
    follows the request concerns it. *)
Definition silent (broker : Request -> list Response) (t : MsgType) : Prop :=
  forall request types, req_type request = t -> PAIRS t = Some types ->
    first_relevant types (req_requestId request) (broker request) = None.

(** Every closure of a waiter that is registered on the connection
    belongs to a promise that is still pending. *)
Definition no_stale_listener (c : Connection) (l : EventName * Handler) : bool :=
  match l.2 with
  | Foreign _ => true
  | WaiterHandler i _ =>
      match waiter_state i c with
      | Some Pending => true
      | _ => false
      end
  end.

Definition no_stale (c : Connection) : bool :=
  forallb (no_stale_listener c) (listeners c).

(** ** [MessageCreationUtil]: message ids and previous references *)

(** The entry of [publishedStreams] for one key; [prevTimestamp] is
    [null] until the first message. *)
Record PublishedStream := mkPublishedStream {
  prevTimestamp : option Z;
  prevSequenceNumber : Z;
}.

(** [this.publishedStreams[key]] on the plain object
    [publishedStreams = {}]: an own entry, a member of
    [Object.prototype], or [undefined]. *)
Inductive PublishedValue :=
| OwnEntry (st : PublishedStream)
| InheritedMember (name : string).

Definition published (publishedStreams : gmap string PublishedStream) (key : string)
    : option PublishedValue :=
  match publishedStreams !! key with
  | Some st => Some (OwnEntry st)
  | None =>
      if bool_decide (key ∈ objectPrototype) then Some (InheritedMember key) else None
  end.

(** [getNextSequenceNumber], with the two getters it calls. Reading a
    property of [undefined] is a [TypeError]; a member of
    [Object.prototype] has no [prevTimestamp], and [undefined] differs
    from every timestamp. *)
Definition getNextSequenceNumber (key : string) (timestamp : Z)
    (publishedStreams : gmap string PublishedStream) : result Z :=
  match published publishedStreams key with
  | None => Throw (error "Cannot read property 'prevTimestamp' of undefined")
  | Some (InheritedMember _) => Ok 0
  | Some (OwnEntry st) =>
      if bool_decide (prevTimestamp st ≠ Some timestamp) then Ok 0
      else Ok (prevSequenceNumber st + 1)
  end.

(** [getPrevMsgRef]: [null] when [prevTimestamp] is falsy, that is
    [null], [undefined] or 0. *)
Definition getPrevMsgRef (key : string) (publishedStreams : gmap string PublishedStream)
    : result (option MessageRef) :=
  match published publishedStreams key with
  | None => Throw (error "Cannot read property 'prevTimestamp' of undefined")
  | Some (InheritedMember _) => Ok None
  | Some (OwnEntry st) =>
      match prevTimestamp st with
      | None => Ok None
      | Some t => if t =? 0 then Ok None else Ok (Some (mkRef t (prevSequenceNumber st)))
      end
  end.

(** The two assignments at the end of [createMsgIdAndPrevRef]. They
    update the own entry of the key; an assignment through an inherited
    member would not create an own property. *)
Definition set_prev (key : string) (timestamp sequenceNumber : Z)
    (publishedStreams : gmap string PublishedStream) : gmap string PublishedStream :=
  match publishedStreams !! key with
  | Some _ => <[key := mkPublishedStream (Some timestamp) sequenceNumber]> publishedStreams
  | None => publishedStreams
  end.

Section MessageIds.
(** [this.msgChainId], drawn once by the constructor. *)
Variable msgChainId : string.

(** [new MessageID(...)] and [new MessageRef(...)] are the records of
    the protocol layer; [streamPartition] and [timestamp] are numbers. *)
Definition createMsgIdAndPrevRef (streamId : string) (streamPartition timestamp : Z)
    (publisherId : string) (publishedStreams : gmap string PublishedStream)
    : result (MessageID * option MessageRef) * gmap string PublishedStream :=
  let key := streamId +:+ pretty streamPartition in
  let ps1 :=
    match published publishedStreams key with
    | None => <[key := mkPublishedStream None 0]> publishedStreams
    | Some _ => publishedStreams
    end in
  match getNextSequenceNumber key timestamp ps1 with
  | Throw e => (Throw e, ps1)
  | Ok sequenceNumber =>
      let messageId :=
        mkMessageID streamId streamPartition timestamp sequenceNumber publisherId
                    msgChainId in
      match getPrevMsgRef key ps1 with
      | Throw e => (Throw e, ps1)
      | Ok prevMsgRef =>
          (Ok (messageId, prevMsgRef), set_prev key timestamp sequenceNumber ps1)
      end
  end.

(** [createDefaultMsgIdAndPrevRef]: partition 0 at the current time. *)
Definition createDefaultMsgIdAndPrevRef (streamId publisherId : string) (now : Z)
    (publishedStreams : gmap string PublishedStream) :=
  createMsgIdAndPrevRef streamId 0 now publisherId publishedStreams.

(** A run of calls, each given as stream id, partition and timestamp,
    on behalf of one publisher. *)
Fixpoint createAll (calls : list (string * Z * Z)) (publisherId : string)
    (publishedStreams : gmap string PublishedStream)
    : list (result (MessageID * option MessageRef)) * gmap string PublishedStream :=
  match calls with
  | [] => ([], publishedStreams)
  | (streamId, streamPartition, timestamp) :: calls =>
      let '(r, ps1) :=
        createMsgIdAndPrevRef streamId streamPartition timestamp publisherId
                              publishedStreams in
      let '(rs, ps2) := createAll calls publisherId ps1 in
      (r :: rs, ps2)
  end.
End MessageIds.

(** *** Vocabulary for statements about chains *)

(** The key under which the chain of a message id is kept. *)
Definition chain_key (i : MessageID) : string :=
  id_streamId i +:+ pretty (id_streamPartition i).

(** The reference under which the next message of the chain names this
    one: none when the timestamp is 0. *)
Definition link_of (i : MessageID) : option MessageRef :=
  if id_timestamp i =? 0 then None
  else Some (mkRef (id_timestamp i) (id_sequenceNumber i)).

(** The reference that the chain state of a key holds. *)
Definition last_link (key : string) (publishedStreams : gmap string PublishedStream)
    : option MessageRef :=
  match publishedStreams !! key with
  | Some (mkPublishedStream (Some t) n) => if t =? 0 then None else Some (mkRef t n)
  | _ => None
  end.

(** Each message names the one before as its previous reference. *)
Fixpoint chained (prev : option MessageRef) (ms : list (MessageID * option MessageRef))
    : Prop :=
  match ms with
  | [] => True
  | (i, p) :: ms => p = prev /\ chained (link_of i) ms
  end.

(** Message references in the order of the protocol: by timestamp,
    then by sequence number. *)
Definition ref_lt (a b : MessageRef) : Prop :=
  timestamp a < timestamp b
  \/ (timestamp a = timestamp b /\ sequenceNumber a < sequenceNumber b).

Definition id_ref (i : MessageID) : MessageRef :=
  mkRef (id_timestamp i) (id_sequenceNumber i).

(** ** [AggregatedError] *)

Module AggregatedError.
(** Errors are compared by identity ([===], [Set.has]): an error value
    is a reference into a heap of error objects. An [AggregatedError]
    has an [errors] set, kept in insertion order as a JavaScript [Set]
    keeps it; any other error has none. *)
Record ErrorObject := mkErrorObject {
  err_message : string;
  err_errors : option (list nat);
}.

Definition newline : string := String "010"%char EmptyString.

(** [new Set(array)]: later duplicates are dropped. *)
Definition set_of (array : list nat) : list nat :=
  foldl (fun acc x => if bool_decide (x ∈ acc) then acc else acc ++ [x]) [] array.

Definition message_of (e : nat) (heap : list ErrorObject) : string :=
  default "" (err_message <$> heap !! e).

Definition errors_of (e : nat) (heap : list ErrorObject) : option (list nat) :=
  heap !! e ≫= err_errors.

Definition set_message (msg : string) (o : ErrorObject) : ErrorObject :=
  mkErrorObject msg (err_errors o).

(** The constructor allocates a new error object. *)
Definition constructor (errors : list nat) (errorMessage : string)
    (heap : list ErrorObject) : nat * list ErrorObject :=
  (length heap, heap ++ [mkErrorObject errorMessage (Some (set_of errors))]).

Definition extend (this err : nat) (message : string) (heap : list ErrorObject)
    : nat * list ErrorObject :=
  let errors := default [] (errors_of this heap) in
  if bool_decide (err = this) || bool_decide (err ∈ errors) then (this, heap)
  else constructor (err :: errors) (message +:+ newline +:+ message_of this heap) heap.

(** [from]: [oldErr] is [None] when it is falsy. An old error has an
    [extend] method exactly when it is an [AggregatedError]. *)
Definition from (oldErr : option nat) (newErr : nat) (msg : option string)
    (heap : list ErrorObject) : nat * list ErrorObject :=
  match oldErr with
  | None =>
      (newErr,
       if truthy_string msg then alter (set_message (default "" msg)) newErr heap
       else heap)
  | Some old =>
      let message := if truthy_string msg then default "" msg else message_of newErr heap in
      match errors_of old heap with
      | Some _ => extend old newErr message heap
      | None => constructor [old; newErr] message heap
      end
  end.

(** Errors collected one after the other, as [err = from(err, newErr)]
    in a loop does. *)
Fixpoint from_all (acc : option nat) (errs : list nat) (heap : list ErrorObject)
    : option nat * list ErrorObject :=
  match errs with
  | [] => (acc, heap)
  | e :: errs =>
      let '(r, heap') := from acc e None heap in
      from_all (Some r) errs heap'
  end.
End AggregatedError.

(** A broker that answers every request with an error, and one that
    never answers. *)
Definition refusingBroker (request : Request) : list Response :=
  [mkResponse ErrorResponse (req_requestId request) "NOT_FOUND" "no such stream"].

Definition silentBroker (request : Request) : list Response := [].

(* ===================================================================== *)
(** * Part II: lemmas and theorems                                        *)
(* ===================================================================== *)

(** ** Option validation and resend requests *)

Lemma validateOptions_rejects (arg : OptionsArg) :
  is_ok (validateOptions arg) = negb (invalid_options arg).
Proof.
  unfold validateOptions.
  destruct arg as [| |[]|n|s|o|src]; simpl; try reflexivity.
  - by destruct (n =? 0).
  - by destruct (String.eqb s "").
  - by destruct (truthy_string (streamId o)).
Qed.

Lemma validateOptions_string (s : string) :
  s ≠ "" ->
  validateOptions (ArgString s) = Ok (mkOptions (Some s) (Some 0) None None None None None).
Proof.
  intros Hs. unfold validateOptions. simpl.
  destruct (String.eqb_spec s "") as [|_]; [congruence|]. simpl.
  destruct (String.eqb_spec s "") as [|_]; [congruence|]. reflexivity.
Qed.

Lemma validateOptions_object (o : Options) :
  truthy_string (streamId o) = true ->
  validateOptions (ArgObject o)
  = Ok (mkOptions (streamId o) (Some (default 0 (streamPartition o)))
                  (last o) (from o) (to o) (publisherId o) (msgChainId o)).
Proof.
  intros Hs. unfold validateOptions. simpl. rewrite Hs. simpl.
  by destruct (streamPartition o).
Qed.

(** Valid options come out with a stream id and a partition. *)
Lemma validateOptions_ok (arg : OptionsArg) (o : Options) :
  validateOptions arg = Ok o ->
  exists sid, streamId o = Some sid /\ sid ≠ ""
    /\ exists p, streamPartition o = Some p.
Proof.
  unfold validateOptions.
  destruct arg as [| |[]|n|s|r|src]; simpl; try discriminate.
  - by destruct (n =? 0).
  - destruct (String.eqb_spec s "") as [|Hne]; simpl; [discriminate|].
    destruct (String.eqb_spec s "") as [|_]; simpl; [done|].
    intros [= <-]. simpl. eauto.
  - destruct (streamId r) as [sid|] eqn:Hsid; simpl; [|discriminate].
    destruct (String.eqb_spec sid "") as [|Hne]; simpl; [discriminate|].
    intros [= <-]. simpl. exists sid. repeat split; [done|].
    destruct (streamPartition r); eauto.
Qed.

(** Validation is idempotent: the [Subscription] constructor validates
    the options that [Subscriptions.subscribe] has validated already. *)
Lemma validateOptions_idem (arg : OptionsArg) (o : Options) :
  validateOptions arg = Ok o -> validateOptions (ArgObject o) = Ok o.
Proof.
  intros Hv. destruct (validateOptions_ok _ _ Hv) as (sid & Hsid & Hne & p & Hp).
  rewrite validateOptions_object.
  - destruct o; simpl in *. by rewrite Hp.
  - rewrite Hsid. simpl. by destruct (String.eqb_spec sid "").
Qed.

Lemma SubKey_ok (arg : OptionsArg) (o : Options) :
  validateOptions arg = Ok o -> exists key, SubKey o = Ok key.
Proof.
  intros Hv. destruct (validateOptions_ok _ _ Hv) as (sid & Hsid & _).
  unfold SubKey. rewrite Hsid. eauto.
Qed.

(** ** The event emitter and [waitForResponse] *)

Section WaiterLemmas.
Implicit Types (c : Connection) (h : Handler) (l : EventName * Handler).

Lemma wf_conn_spec c :
  wf_conn c = true <->
  forall ev i k, (ev, WaiterHandler i k) ∈ listeners c ->
    exists w, waiters c !! i = Some w /\
      match k with
      | OnResponse => exists t, t ∈ w_types w /\ ev = EvMessage t
      | OnErrorResponse => ev = EvMessage ErrorResponse
      end.
Proof.
  unfold wf_conn. rewrite forallb_forall. split.
  - intros H ev i k Hin. apply list_elem_of_In in Hin.
    specialize (H _ Hin). unfold wf_listener in H. simpl in H.
    destruct k, (waiters c !! i) as [w|]; try discriminate; exists w; split; auto.
    + apply existsb_exists in H as (t & Ht & He).
      exists t. split; [by apply list_elem_of_In | by apply bool_decide_eq_true in He].
    + by apply bool_decide_eq_true in H.
  - intros H [ev h] Hin. apply list_elem_of_In in Hin.
    unfold wf_listener. simpl. destruct h as [i k|]; [|done].
    destruct (H _ _ _ Hin) as (w & -> & Hk). destruct k.
    + destruct Hk as (t & Ht & ->). apply existsb_exists. exists t.
      split; [by apply list_elem_of_In | by apply bool_decide_eq_true].
    + by apply bool_decide_eq_true.
Qed.

Lemma off_listeners ev h c l :
  l ∈ listeners (off ev h c) <-> l ∈ listeners c /\ l ≠ (ev, h).
Proof. unfold off. simpl. rewrite list_elem_of_filter. tauto. Qed.

Lemma off_waiters ev h c : waiters (off ev h c) = waiters c.
Proof. reflexivity. Qed.

Lemma off_sent ev h c : sent (off ev h c) = sent c.
Proof. reflexivity. Qed.

Lemma off_other i ev j k c :
  j ≠ i ->
  listeners_of_waiter i (off ev (WaiterHandler j k) c) = listeners_of_waiter i c.
Proof.
  intros Hne. unfold listeners_of_waiter, off. simpl.
  rewrite list_filter_filter. apply list_filter_iff. intros [ev' h']. simpl.
  split; [tauto|]. intros Ho. split; [done|]. intros [= -> ->].
  unfold owned_by, handler_of in Ho. simpl in Ho. apply bool_decide_unpack in Ho. done.
Qed.

Lemma cleanup_fold_waiters i types c :
  waiters (foldl (fun c t => off (EvMessage t) (WaiterHandler i OnResponse) c) c types)
  = waiters c.
Proof. revert c. induction types as [|t ts IH]; intros c; simpl; [done|]. by rewrite IH. Qed.

Lemma cleanup_fold_sent i types c :
  sent (foldl (fun c t => off (EvMessage t) (WaiterHandler i OnResponse) c) c types)
  = sent c.
Proof. revert c. induction types as [|t ts IH]; intros c; simpl; [done|]. by rewrite IH. Qed.

Lemma cleanup_fold_listeners i types c l :
  l ∈ listeners (foldl (fun c t => off (EvMessage t) (WaiterHandler i OnResponse) c) c types)
  <-> l ∈ listeners c /\ forall t, t ∈ types -> l ≠ (EvMessage t, WaiterHandler i OnResponse).
Proof.
  revert c. induction types as [|t ts IH]; intros c; simpl.
  - split; [intros H; split; [done|] | tauto]. intros t Ht. by apply elem_of_nil in Ht.
  - rewrite IH, off_listeners. split.
    + intros [[H1 H2] H3]. split; [done|]. intros t' [->|Ht']%elem_of_cons; auto.
    + intros [H1 H2]. split; [split; [done|]|].
      * apply H2. by left.
      * intros t' Ht'. apply H2. by right.
Qed.

Lemma cleanup_waiters i types c : waiters (cleanup i types c) = waiters c.
Proof. unfold cleanup. by rewrite off_waiters, cleanup_fold_waiters. Qed.

Lemma cleanup_sent i types c : sent (cleanup i types c) = sent c.
Proof. unfold cleanup. by rewrite off_sent, cleanup_fold_sent. Qed.

Lemma cleanup_listeners i types c l :
  l ∈ listeners (cleanup i types c) <->
  l ∈ listeners c
  /\ l ≠ (EvMessage ErrorResponse, WaiterHandler i OnErrorResponse)
  /\ forall t, t ∈ types -> l ≠ (EvMessage t, WaiterHandler i OnResponse).
Proof. unfold cleanup. rewrite off_listeners, cleanup_fold_listeners. tauto. Qed.

Lemma cleanup_other i j types c :
  j ≠ i -> listeners_of_waiter i (cleanup j types c) = listeners_of_waiter i c.
Proof.
  intros Hne. unfold cleanup. rewrite off_other by done.
  revert c. induction types as [|t ts IH]; intros c; simpl; [done|].
  rewrite IH. by apply off_other.
Qed.

Lemma filter_nil_intro {A} (P : A -> Prop) `{!forall x, Decision (P x)} (xs : list A) :
  (forall x, x ∈ xs -> ~ P x) -> filter P xs = [].
Proof.
  induction xs as [|x xs IH]; intros Hall; [done|].
  rewrite filter_cons_False by (apply Hall; by left).
  apply IH. intros y Hy. apply Hall. by right.
Qed.

Lemma owned_by_inv i l :
  owned_by i l -> exists k, l.2 = WaiterHandler i k.
Proof.
  unfold owned_by, handler_of. destruct (l.2) as [j k|]; [|done].
  intros ->%bool_decide_unpack. eauto.
Qed.

(** Under the invariant, [cleanup] removes every closure of the waiter. *)
Lemma cleanup_self i w c :
  wf_conn c = true -> waiters c !! i = Some w ->
  listeners_of_waiter i (cleanup i (w_types w) c) = [].
Proof.
  intros Hwf Hw. apply filter_nil_intro. intros [ev h] Hin Ho.
  apply owned_by_inv in Ho as [k Hk]. simpl in Hk. subst h.
  apply cleanup_listeners in Hin as (Hin & Herr & Hres).
  apply wf_conn_spec with (ev := ev) (i := i) (k := k) in Hwf as (w' & Hw' & Hk); [|done].
  rewrite Hw in Hw'. injection Hw' as <-. destruct k.
  - destruct Hk as (t & Ht & ->). by apply (Hres t).
  - subst ev. done.
Qed.

Lemma settle_listeners i s c : listeners (settle i s c) = listeners c.
Proof. unfold settle. by repeat case_match. Qed.

Lemma settle_sent i s c : sent (settle i s c) = sent c.
Proof. unfold settle. by repeat case_match. Qed.

Lemma settle_length i s c : length (waiters (settle i s c)) = length (waiters c).
Proof. unfold settle. repeat case_match; simpl; by rewrite ?length_insert. Qed.

Lemma settle_other i j s c : j ≠ i -> waiters (settle j s c) !! i = waiters c !! i.
Proof.
  intros Hne. unfold settle. repeat case_match; simpl; try done.
  by rewrite list_lookup_insert_ne.
Qed.

Lemma settle_pending i s c w :
  waiters c !! i = Some w -> w_state w = Pending ->
  waiters (settle i s c) !! i = Some (mkWaiter (w_requestId w) (w_types w) s).
Proof.
  intros Hw Hs. unfold settle. rewrite Hw, Hs. simpl.
  apply list_lookup_insert_eq. by eapply lookup_lt_Some.
Qed.

Lemma settle_settled i s c w :
  waiters c !! i = Some w -> w_state w ≠ Pending -> settle i s c = c.
Proof. intros Hw Hs. unfold settle. rewrite Hw. by destruct (w_state w). Qed.

(** Settling keeps every waiter's request id and expected types. *)
Lemma settle_lookup i j s c w :
  waiters (settle j s c) !! i = Some w ->
  exists w0, waiters c !! i = Some w0
    /\ w_requestId w = w_requestId w0 /\ w_types w = w_types w0.
Proof.
  unfold settle. destruct (waiters c !! j) as [wj|] eqn:Hj; [|eauto].
  destruct (w_state wj); eauto. simpl.
  destruct (decide (j = i)) as [->|Hne].
  - rewrite list_lookup_insert_eq by (by eapply lookup_lt_Some).
    intros [= <-]. eauto.
  - rewrite list_lookup_insert_ne by done. eauto.
Qed.

Lemma settle_lookup_inv i j s c w0 :
  waiters c !! i = Some w0 ->
  exists w, waiters (settle j s c) !! i = Some w
    /\ w_requestId w = w_requestId w0 /\ w_types w = w_types w0.
Proof.
  intros Hi. unfold settle. destruct (waiters c !! j) as [wj|] eqn:Hj; [|eauto].
  destruct (w_state wj); eauto. simpl.
  destruct (decide (j = i)) as [->|Hne].
  - rewrite list_lookup_insert_eq by (by eapply lookup_lt_Some).
    rewrite Hi in Hj. injection Hj as ->. eauto.
  - rewrite list_lookup_insert_ne by done. eauto.
Qed.

(** *** One listener call *)

Lemma call_listeners h res c l :
  l ∈ listeners (call h res c) -> l ∈ listeners c.
Proof.
  unfold call. destruct h as [i k|]; try done.
  destruct (waiters c !! i) as [w|]; [|done].
  case_decide; [|done].
  destruct k; rewrite settle_listeners; intros Hin%cleanup_listeners; tauto.
Qed.

Lemma call_sent h res c : sent (call h res c) = sent c.
Proof.
  unfold call. destruct h as [i k|]; try done.
  destruct (waiters c !! i) as [w|]; [|done].
  case_decide; [|done].
  destruct k; by rewrite settle_sent, cleanup_sent.
Qed.

Lemma call_waiters_inv h res c i w0 :
  waiters c !! i = Some w0 ->
  exists w, waiters (call h res c) !! i = Some w
    /\ w_requestId w = w_requestId w0 /\ w_types w = w_types w0.
Proof.
  intros Hi. unfold call. destruct h as [j k|]; eauto.
  destruct (waiters c !! j) as [w|]; eauto.
  case_decide; eauto.
  destruct k; apply settle_lookup_inv; by rewrite cleanup_waiters.
Qed.

Lemma call_wf h res c : wf_conn c = true -> wf_conn (call h res c) = true.
Proof.
  rewrite !wf_conn_spec. intros Hwf ev i k Hin%call_listeners.
  destruct (Hwf _ _ _ Hin) as (w0 & Hw0 & Hk).
  destruct (call_waiters_inv h res c i w0 Hw0) as (w & Hw & _ & Ht).
  exists w. split; [done|]. by rewrite Ht.
Qed.

(** A call of somebody else's listener leaves waiter [i] alone. *)
Lemma call_other i h res c :
  (forall k, h ≠ WaiterHandler i k) ->
  waiters (call h res c) !! i = waiters c !! i
  /\ listeners_of_waiter i (call h res c) = listeners_of_waiter i c.
Proof.
  intros Hne. unfold call. destruct h as [j k|]; try done.
  assert (j ≠ i) by (intros ->; by apply (Hne k)).
  destruct (waiters c !! j) as [w|]; [|done].
  case_decide; [|done].
  unfold listeners_of_waiter.
  destruct k; rewrite settle_other, settle_listeners, cleanup_waiters by done;
    (split; [done|]); by apply cleanup_other.
Qed.

(** A message for another request id is ignored. *)
Lemma call_mismatch i k res c w :
  waiters c !! i = Some w -> res_requestId res ≠ w_requestId w ->
  call (WaiterHandler i k) res c = c.
Proof. intros Hw Hne. unfold call. rewrite Hw. by case_decide. Qed.

(** A message with the waiter's request id settles it and removes all
    of its listeners. *)
Lemma call_match i k res c rid types :
  wf_conn c = true ->
  waiters c !! i = Some (mkWaiter rid types Pending) ->
  res_requestId res = rid ->
  waiters (call (WaiterHandler i k) res c) !! i
    = Some (mkWaiter rid types (settled_by k res))
  /\ listeners_of_waiter i (call (WaiterHandler i k) res c) = [].
Proof.
  intros Hwf Hw Hid. unfold call. rewrite Hw. simpl.
  rewrite decide_True by done.
  pose proof (cleanup_self i _ c Hwf Hw) as Hnil. simpl in Hnil.
  unfold listeners_of_waiter in *.
  destruct k; simpl; rewrite settle_listeners, Hnil; (split; [|done]);
    by rewrite (settle_pending _ _ _ (mkWaiter rid types Pending))
      by (by rewrite ?cleanup_waiters).
Qed.

(** Once settled and cleaned up, a waiter is never touched again. *)
Lemma call_settled i h res c w :
  waiters c !! i = Some w -> w_state w ≠ Pending ->
  listeners_of_waiter i c = [] ->
  waiters (call h res c) !! i = Some w
  /\ listeners_of_waiter i (call h res c) = [].
Proof.
  intros Hw Hs Hnil. split.
  - unfold call. destruct h as [j k|]; try done.
    destruct (waiters c !! j) as [wj|] eqn:Hj; [|done].
    case_decide; [|done].
    destruct (decide (j = i)) as [->|Hne].
    + rewrite Hw in Hj. injection Hj as <-.
      destruct k; by rewrite (settle_settled _ _ _ w), cleanup_waiters
        by (by rewrite ?cleanup_waiters).
    + destruct k; by rewrite settle_other, cleanup_waiters.
  - apply filter_nil_intro. intros l Hl%call_listeners Ho.
    unfold listeners_of_waiter in Hnil.
    by eapply (filter_nil_not_elem_of (fun l => owned_by i l)).
Qed.

(** *** A whole emit *)

Lemma fold_calls_wf res hs c :
  wf_conn c = true -> wf_conn (foldl (fun c h => call h res c) c hs) = true.
Proof. revert c. induction hs as [|h hs IH]; intros c Hwf; simpl; auto using call_wf. Qed.

Lemma fold_calls_sent res hs c :
  sent (foldl (fun c h => call h res c) c hs) = sent c.
Proof.
  revert c. induction hs as [|h hs IH]; intros c; simpl; [done|].
  by rewrite IH, call_sent.
Qed.

Lemma fold_calls_settled i rid types s res hs c :
  settled_waiter i rid types s c ->
  settled_waiter i rid types s (foldl (fun c h => call h res c) c hs).
Proof.
  revert c. induction hs as [|h hs IH]; intros c Hc; simpl; [done|].
  apply IH. destruct Hc as (Hwf & Hw & Hs & Hnil).
  destruct (call_settled i h res c _ Hw Hs Hnil) as [Hw' Hnil'].
  repeat split; auto using call_wf.
Qed.

Lemma handler_of_inv i h : handler_of i h -> exists k, h = WaiterHandler i k.
Proof. destruct h as [j k|]; [|done]. intros ->%bool_decide_unpack. eauto. Qed.

Lemma handler_of_not i h : ~ handler_of i h -> forall k, h ≠ WaiterHandler i k.
Proof. intros Hn k ->. apply Hn. simpl. by apply bool_decide_pack. Qed.

Lemma fold_calls_ignored i rid types res hs c :
  pending_waiter i rid types c ->
  (forall k, WaiterHandler i k ∈ hs -> res_requestId res ≠ rid) ->
  pending_waiter i rid types (foldl (fun c h => call h res c) c hs).
Proof.
  revert c. induction hs as [|h hs IH]; intros c Hc Hhs; simpl; [done|].
  apply IH; [|intros k Hk; apply (Hhs k); by right].
  destruct Hc as (Hwf & Hw & Hl).
  destruct (decide (handler_of i h)) as [Hh|Hh].
  - apply handler_of_inv in Hh as [k ->].
    rewrite (call_mismatch i k res c _ Hw); [done|]. simpl. apply (Hhs k). by left.
  - destruct (call_other i h res c (handler_of_not _ _ Hh)) as [Hw' Hl'].
    repeat split; [by apply call_wf | by rewrite Hw' | by rewrite Hl'].
Qed.

Lemma fold_calls_first i rid types res k rest hs c :
  pending_waiter i rid types c ->
  res_requestId res = rid ->
  filter (fun h => handler_of i h) hs = WaiterHandler i k :: rest ->
  settled_waiter i rid types (settled_by k res)
    (foldl (fun c h => call h res c) c hs).
Proof.
  revert c. induction hs as [|h hs IH]; intros c Hc Hid Hf; simpl; [done|].
  destruct Hc as (Hwf & Hw & Hl).
  destruct (decide (handler_of i h)) as [Hh|Hh].
  - rewrite filter_cons_True in Hf by done. injection Hf as -> _.
    apply fold_calls_settled.
    destruct (call_match i k res c rid types Hwf Hw Hid) as [Hw' Hl'].
    repeat split; [by apply call_wf | done | by destruct k | done].
  - rewrite filter_cons_False in Hf by done.
    apply IH; [|done|done].
    destruct (call_other i h res c (handler_of_not _ _ Hh)) as [Hw' Hl'].
    repeat split; [by apply call_wf | by rewrite Hw' | by rewrite Hl'].
Qed.

Lemma handlers_of_owned i ev (ls : list (EventName * Handler)) :
  filter (fun h => handler_of i h) (handlers_of ev ls)
  = handlers_of ev (filter (fun l => owned_by i l) ls).
Proof.
  unfold handlers_of. induction ls as [|[ev' h] ls IH]; [done|].
  rewrite (filter_cons (fun l => l.1 = ev)), (filter_cons (fun l => owned_by i l)).
  unfold owned_by at 1. simpl.
  destruct (decide (ev' = ev)) as [He|He], (decide (handler_of i h)) as [Hh|Hh]; simpl.
  - rewrite filter_cons_True by done.
    rewrite (filter_cons_True (fun l => l.1 = ev)) by done. simpl.
    f_equal. exact IH.
  - rewrite filter_cons_False by done. exact IH.
  - rewrite (filter_cons_False (fun l => l.1 = ev)) by done. exact IH.
  - exact IH.
Qed.

Lemma handlers_of_app ev (l1 l2 : list (EventName * Handler)) :
  handlers_of ev (l1 ++ l2) = handlers_of ev l1 ++ handlers_of ev l2.
Proof. unfold handlers_of. by rewrite filter_app, fmap_app. Qed.

(** The closures of a waiter that listen for messages of type [t]. *)
Lemma registered_expected i types t :
  t ∈ types ->
  exists rest,
    handlers_of (EvMessage t) (registered i types) = WaiterHandler i OnResponse :: rest.
Proof.
  unfold registered. rewrite handlers_of_app.
  induction types as [|t' ts IH]; intros Hin; [by apply elem_of_nil in Hin|].
  rewrite fmap_cons. unfold handlers_of at 1. rewrite filter_cons. simpl.
  destruct (decide (EvMessage t' = EvMessage t)) as [_|Hne]; simpl; [eauto|].
  apply elem_of_cons in Hin as [->|Hin]; [done|]. by apply IH.
Qed.

Lemma registered_unexpected i types t :
  t ∉ types ->
  handlers_of (EvMessage t) (registered i types)
  = if decide (t = ErrorResponse) then [WaiterHandler i OnErrorResponse] else [].
Proof.
  intros Hnin. unfold registered. rewrite handlers_of_app.
  assert (handlers_of (EvMessage t)
            ((fun t0 => (EvMessage t0, WaiterHandler i OnResponse)) <$> types) = []) as ->.
  { unfold handlers_of. rewrite filter_nil_intro; [done|].
    intros [ev h] (t0 & [= -> ->] & Ht0)%list_elem_of_fmap. simpl.
    intros [= ->]. done. }
  unfold handlers_of. rewrite filter_cons. simpl.
  destruct (decide (EvMessage ErrorResponse = EvMessage t)) as [[= <-]|Hne]; simpl.
  - done.
  - destruct (decide (t = ErrorResponse)) as [->|]; done.
Qed.

Lemma waiter_handlers_on i rid types ev c :
  pending_waiter i rid types c ->
  filter (fun h => handler_of i h) (handlers_of ev (listeners c))
  = handlers_of ev (registered i types).
Proof.
  intros (_ & _ & Hl). rewrite handlers_of_owned.
  unfold listeners_of_waiter in Hl. by rewrite Hl.
Qed.

(** A message that does not concern the waiter leaves it waiting. *)
Lemma emitMessage_irrelevant i rid types m c :
  pending_waiter i rid types c ->
  relevant types rid m = false ->
  pending_waiter i rid types (emitMessage m c).
Proof.
  intros Hc Hrel. unfold emitMessage, emit.
  apply fold_calls_ignored; [done|]. intros k Hk Hid.
  assert (WaiterHandler i k ∈ handlers_of (EvMessage (res_type m)) (registered i types)) as Hin.
  { rewrite <- (waiter_handlers_on i rid types _ c Hc).
    apply list_elem_of_filter. split; [|done]. simpl. by apply bool_decide_pack. }
  unfold relevant in Hrel. rewrite bool_decide_eq_true_2 in Hrel by done.
  simpl in Hrel. apply bool_decide_eq_false in Hrel.
  rewrite registered_unexpected in Hin by tauto.
  rewrite decide_False in Hin by tauto. by apply elem_of_nil in Hin.
Qed.

(** The first message that concerns the waiter settles it. *)
Lemma emitMessage_relevant i rid types m c :
  pending_waiter i rid types c ->
  relevant types rid m = true ->
  settled_waiter i rid types (outcome_of types m) (emitMessage m c).
Proof.
  intros Hc Hrel. unfold emitMessage, emit.
  apply andb_true_iff in Hrel as [Hid%bool_decide_eq_true Hty%bool_decide_eq_true].
  unfold outcome_of. destruct (decide (res_type m ∈ types)) as [Hin|Hnin].
  - rewrite bool_decide_eq_true_2 by done.
    destruct (registered_expected i types _ Hin) as [rest Hrest].
    apply (fold_calls_first i rid types m OnResponse rest); [done|done|].
    by rewrite (waiter_handlers_on i rid types _ c Hc).
  - rewrite bool_decide_eq_false_2 by done.
    destruct Hty as [?|Hty]; [done|].
    apply (fold_calls_first i rid types m OnErrorResponse []); [done|done|].
    rewrite (waiter_handlers_on i rid types _ c Hc).
    rewrite registered_unexpected by done. by rewrite decide_True.
Qed.

Lemma emit_settled i rid types s ev res c :
  settled_waiter i rid types s c -> settled_waiter i rid types s (emit ev res c).
Proof. apply fold_calls_settled. Qed.

Lemma emit_wf ev res c : wf_conn c = true -> wf_conn (emit ev res c) = true.
Proof. apply fold_calls_wf. Qed.

Lemma emit_sent ev res c : sent (emit ev res c) = sent c.
Proof. apply fold_calls_sent. Qed.

(** *** A whole inbound trace *)

Lemma deliver_wf msgs c : wf_conn c = true -> wf_conn (deliver msgs c) = true.
Proof.
  revert c. induction msgs as [|m msgs IH]; intros c Hwf; simpl; [done|].
  apply IH. by apply emit_wf.
Qed.

Lemma deliver_sent msgs c : sent (deliver msgs c) = sent c.
Proof.
  revert c. induction msgs as [|m msgs IH]; intros c; simpl; [done|].
  rewrite IH. apply emit_sent.
Qed.

Lemma deliver_settled i rid types s msgs c :
  settled_waiter i rid types s c -> settled_waiter i rid types s (deliver msgs c).
Proof.
  revert c. induction msgs as [|m msgs IH]; intros c Hc; simpl; [done|].
  apply IH. by apply emit_settled.
Qed.

Lemma deliver_pending i rid types msgs c :
  pending_waiter i rid types c ->
  match first_relevant types rid msgs with
  | Some m => settled_waiter i rid types (outcome_of types m) (deliver msgs c)
  | None => pending_waiter i rid types (deliver msgs c)
  end.
Proof.
  revert c. induction msgs as [|m msgs IH]; intros c Hc; simpl; [done|].
  unfold first_relevant. simpl.
  destruct (relevant types rid m) eqn:Hrel.
  - apply deliver_settled. by apply emitMessage_relevant.
  - apply IH. by apply emitMessage_irrelevant.
Qed.

(** *** Registration *)

Lemma wf_no_dangling c :
  wf_conn c = true -> listeners_of_waiter (length (waiters c)) c = [].
Proof.
  intros Hwf. apply filter_nil_intro. intros [ev h] Hin Ho.
  apply owned_by_inv in Ho as [k Hk]. simpl in Hk. subst h.
  destruct (proj1 (wf_conn_spec c) Hwf ev _ k Hin) as (w & Hw & _).
  apply lookup_lt_Some in Hw. lia.
Qed.

Lemma on_fold_listeners i types c :
  listeners (foldl (fun c t => on (EvMessage t) (WaiterHandler i OnResponse) c) c types)
  = listeners c ++ ((fun t => (EvMessage t, WaiterHandler i OnResponse)) <$> types).
Proof.
  revert c. induction types as [|t ts IH]; intros c; simpl.
  - by rewrite app_nil_r.
  - rewrite IH. simpl. by rewrite <- app_assoc.
Qed.

Lemma on_fold_waiters i types c :
  waiters (foldl (fun c t => on (EvMessage t) (WaiterHandler i OnResponse) c) c types)
  = waiters c.
Proof. revert c. induction types as [|t ts IH]; intros c; simpl; [done|]. by rewrite IH. Qed.

Lemma on_fold_sent i types c :
  sent (foldl (fun c t => on (EvMessage t) (WaiterHandler i OnResponse) c) c types)
  = sent c.
Proof. revert c. induction types as [|t ts IH]; intros c; simpl; [done|]. by rewrite IH. Qed.

Lemma waitForResponse_listeners types rid c :
  listeners (waitForResponse types rid c).2
  = listeners c ++ registered (length (waiters c)) types.
Proof.
  unfold waitForResponse, registered. simpl.
  rewrite on_fold_listeners. simpl. by rewrite <- app_assoc.
Qed.

Lemma waitForResponse_waiters types rid c :
  waiters (waitForResponse types rid c).2 = waiters c ++ [mkWaiter rid types Pending].
Proof. unfold waitForResponse. simpl. by rewrite on_fold_waiters. Qed.

Lemma waitForResponse_sent types rid c : sent (waitForResponse types rid c).2 = sent c.
Proof. unfold waitForResponse. simpl. by rewrite on_fold_sent. Qed.

Lemma registered_owned i types :
  filter (fun l => owned_by i l) (registered i types) = registered i types.
Proof.
  unfold registered. rewrite filter_app. f_equal.
  - induction types as [|t ts IH]; [done|].
    rewrite fmap_cons, filter_cons_True; [by rewrite IH|].
    unfold owned_by. simpl. by apply bool_decide_pack.
  - rewrite filter_cons_True; [done|].
    unfold owned_by. simpl. by apply bool_decide_pack.
Qed.

Lemma registered_wf i types ev k :
  (ev, WaiterHandler i k) ∈ registered i types ->
  match k with
  | OnResponse => exists t, t ∈ types /\ ev = EvMessage t
  | OnErrorResponse => ev = EvMessage ErrorResponse
  end.
Proof.
  unfold registered. intros [Hin|Hin]%elem_of_app.
  - apply list_elem_of_fmap in Hin as (t & [= -> ->] & Ht). eauto.
  - apply list_elem_of_singleton in Hin as [= -> ->]. done.
Qed.

Lemma registered_owner i types ev j k :
  (ev, WaiterHandler j k) ∈ registered i types -> j = i.
Proof.
  unfold registered. intros [Hin|Hin]%elem_of_app.
  - by apply list_elem_of_fmap in Hin as (t & [= -> -> ->] & Ht).
  - by apply list_elem_of_singleton in Hin as [= -> -> ->].
Qed.

(** [waitForResponse] leaves a freshly registered, pending waiter. *)
Lemma waitForResponse_pending types rid c :
  wf_conn c = true ->
  (waitForResponse types rid c).1 = length (waiters c)
  /\ pending_waiter (length (waiters c)) rid types (waitForResponse types rid c).2.
Proof.
  intros Hwf. split; [done|]. repeat split.
  - apply wf_conn_spec. intros ev i k.
    rewrite waitForResponse_listeners, waitForResponse_waiters.
    intros [Hin|Hin]%elem_of_app.
    + destruct (proj1 (wf_conn_spec c) Hwf ev i k Hin) as (w & Hw & Hk).
      exists w. split; [|done]. by apply lookup_app_l_Some.
    + pose proof (registered_owner _ _ _ _ _ Hin) as ->.
      exists (mkWaiter rid types Pending). split.
      * by rewrite lookup_app_r, Nat.sub_diag.
      * by apply registered_wf in Hin.
  - rewrite waitForResponse_waiters. by rewrite lookup_app_r, Nat.sub_diag.
  - unfold listeners_of_waiter. rewrite waitForResponse_listeners, filter_app.
    pose proof (wf_no_dangling c Hwf) as Hnil. unfold listeners_of_waiter in Hnil.
    by rewrite Hnil, registered_owned.
Qed.
End WaiterLemmas.

(** ** The wire round trip *)

Section ClientLemmas.
Variable broker : Request -> list Response.

Lemma send_pending i rid types request c :
  pending_waiter i rid types c -> pending_waiter i rid types (send request c).
Proof. intros (Hwf & Hw & Hl). by repeat split. Qed.

Lemma pending_state i rid types c :
  pending_waiter i rid types c -> waiter_state i c = Some Pending.
Proof. intros (_ & Hw & _). unfold waiter_state. by rewrite Hw. Qed.

Lemma settled_state i rid types s c :
  settled_waiter i rid types s c -> waiter_state i c = Some s.
Proof. intros (_ & Hw & _). unfold waiter_state. by rewrite Hw. Qed.

Lemma request_response_spec request cl types :
  wf_conn (connection cl) = true ->
  PAIRS (req_type request) = Some types ->
  exists c3,
    request_response broker request cl
    = (reply_of types (req_requestId request) (broker request), set_connection c3 cl)
    /\ sent c3 = sent (connection cl) ++ [request]
    /\ wf_conn c3 = true.
Proof.
  intros Hwf Hty. unfold request_response, waitForRequestResponse. rewrite Hty.
  destruct (waitForResponse_pending types (req_requestId request) _ Hwf) as [Hi Hp].
  destruct (waitForResponse types (req_requestId request) (connection cl))
    as [i c1] eqn:Hw. simpl in Hi, Hp. subst i.
  eexists. split; [|split].
  - f_equal. unfold reply_of.
    pose proof (deliver_pending _ _ _ (broker request) _
                  (send_pending _ _ _ request _ Hp)) as Hd.
    destruct (first_relevant types (req_requestId request) (broker request)) as [m|].
    + rewrite (settled_state _ _ _ _ _ Hd). unfold outcome_of. by case_bool_decide.
    + by rewrite (pending_state _ _ _ _ Hd).
  - rewrite deliver_sent. simpl. f_equal.
    replace c1 with (waitForResponse types (req_requestId request) (connection cl)).2
      by (by rewrite Hw).
    apply waitForResponse_sent.
  - apply deliver_wf. by destruct Hp as (Hwf1 & _).
Qed.

Lemma subscribe_spec o cl :
  wf_conn (connection cl) = true ->
  let request := subscribeRequest o (uuid "sub" (uuid_counter cl)) (sessionToken cl) in
  exists c3,
    subscribe broker o cl
    = (reply_of [SubscribeResponse] (req_requestId request) (broker request),
       mkClient c3 (sessionToken cl) (S (uuid_counter cl)) (iterator_counter cl)
                (subscriptions cl))
    /\ sent c3 = sent (connection cl) ++ [request]
    /\ wf_conn c3 = true.
Proof.
  intros Hwf request. subst request. unfold subscribe, next_uuid. cbv iota beta.
  destruct (request_response_spec
              (subscribeRequest o (uuid "sub" (uuid_counter cl)) (sessionToken cl))
              (mkClient (connection cl) (sessionToken cl) (S (uuid_counter cl))
                        (iterator_counter cl) (subscriptions cl))
              [SubscribeResponse] Hwf eq_refl) as (c3 & Heq & Hsent & Hwf3).
  exists c3. by rewrite Heq.
Qed.

Lemma unsubscribe_spec o cl :
  wf_conn (connection cl) = true ->
  let request := unsubscribeRequest o (uuid "unsub" (uuid_counter cl)) (sessionToken cl) in
  exists c3,
    unsubscribe broker o cl
    = (reply_of [UnsubscribeResponse] (req_requestId request) (broker request),
       mkClient c3 (sessionToken cl) (S (uuid_counter cl)) (iterator_counter cl)
                (subscriptions cl))
    /\ sent c3 = sent (connection cl) ++ [request]
    /\ wf_conn c3 = true.
Proof.
  intros Hwf request. subst request. unfold unsubscribe, next_uuid. cbv iota beta.
  destruct (request_response_spec
              (unsubscribeRequest o (uuid "unsub" (uuid_counter cl)) (sessionToken cl))
              (mkClient (connection cl) (sessionToken cl) (S (uuid_counter cl))
                        (iterator_counter cl) (subscriptions cl))
              [UnsubscribeResponse] Hwf eq_refl) as (c3 & Heq & Hsent & Hwf3).
  exists c3. by rewrite Heq.
Qed.

(** An acknowledging broker makes the round trip succeed. *)
Lemma reply_of_acknowledged t request :
  acknowledges broker t -> req_type request = t ->
  exists types m,
    PAIRS t = Some types
    /\ reply_of types (req_requestId request) (broker request) = Fulfilled m
    /\ res_type m ∈ types.
Proof.
  intros Hack Hty. destruct (Hack request Hty) as (types & m & Hp & Hf & Hin).
  exists types, m. repeat split; try done.
  unfold reply_of. rewrite Hf. by rewrite bool_decide_eq_true_2.
Qed.

(** *** [Subscription.subscribe] and [Subscription.unsubscribe] *)

(** With the response cached, [subscribe] sends nothing: it only opens
    another iterator. *)
Lemma Subscription_subscribe_cached s m cl :
  sendSubscribe_cache s = Some m -> stalled s = false -> aborted s = false ->
  Subscription.subscribe broker s cl
  = (Fulfilled (iterator_counter cl),
     mkSubscription (sub_options s) (Some m) None
                    (streams s ++ [iterator_counter cl]) false false (emitted s),
     mkClient (connection cl) (sessionToken cl) (uuid_counter cl)
              (S (iterator_counter cl)) (subscriptions cl)).
Proof.
  destruct s as [opts sc uc strs ab st em]. simpl. intros -> -> ->.
  reflexivity.
Qed.

(** Without a cached response, [subscribe] makes one round trip. *)
Lemma Subscription_subscribe_first s cl :
  acknowledges broker SubscribeRequest ->
  wf_conn (connection cl) = true ->
  sendSubscribe_cache s = None -> stalled s = false -> aborted s = false ->
  exists m c3,
    Subscription.subscribe broker s cl
    = (Fulfilled (iterator_counter cl),
       mkSubscription (sub_options s) (Some m) None
                      (streams s ++ [iterator_counter cl]) false false
                      (emitted s ++ [EvSubscribed]),
       mkClient c3 (sessionToken cl) (S (uuid_counter cl))
                (S (iterator_counter cl)) (subscriptions cl))
    /\ sent c3 = sent (connection cl)
                  ++ [subscribeRequest (sub_options s) (uuid "sub" (uuid_counter cl))
                                       (sessionToken cl)]
    /\ wf_conn c3 = true.
Proof.
  intros Hack Hwf Hc Hst Hab.
  destruct (subscribe_spec (sub_options s) cl Hwf) as (c3 & Heq & Hsent & Hwf3).
  destruct (reply_of_acknowledged SubscribeRequest
              (subscribeRequest (sub_options s) (uuid "sub" (uuid_counter cl))
                                (sessionToken cl)) Hack eq_refl)
    as (types & m & [= <-] & Hr & _).
  rewrite Hr in Heq. exists m, c3. split; [|done].
  destruct s as [opts sc uc strs ab st em]. simpl in *. subst.
  unfold Subscription.subscribe, Subscription.subscribe_task, Subscription.sendSubscribe.
  cbn -[subscribe]. rewrite Heq. reflexivity.
Qed.

Lemma Subscription_unsubscribe_cached s m cl :
  sendUnsubscribe_cache s = Some m -> stalled s = false ->
  Subscription.unsubscribe broker s cl
  = (Fulfilled (),
     mkSubscription (sub_options s) None (Some m) (streams s) (aborted s) false
                    (emitted s),
     cl).
Proof.
  destruct s as [opts sc uc strs ab st em]. simpl. intros -> ->. reflexivity.
Qed.

Lemma Subscription_unsubscribe_first s cl :
  acknowledges broker UnsubscribeRequest ->
  wf_conn (connection cl) = true ->
  sendUnsubscribe_cache s = None -> stalled s = false ->
  exists m c3,
    Subscription.unsubscribe broker s cl
    = (Fulfilled (),
       mkSubscription (sub_options s) None (Some m) (streams s) (aborted s) false
                      (emitted s ++ [EvUnsubscribed]),
       mkClient c3 (sessionToken cl) (S (uuid_counter cl))
                (iterator_counter cl) (subscriptions cl))
    /\ sent c3 = sent (connection cl)
                  ++ [unsubscribeRequest (sub_options s) (uuid "unsub" (uuid_counter cl))
                                         (sessionToken cl)]
    /\ wf_conn c3 = true.
Proof.
  intros Hack Hwf Hc Hst.
  destruct (unsubscribe_spec (sub_options s) cl Hwf) as (c3 & Heq & Hsent & Hwf3).
  destruct (reply_of_acknowledged UnsubscribeRequest
              (unsubscribeRequest (sub_options s) (uuid "unsub" (uuid_counter cl))
                                  (sessionToken cl)) Hack eq_refl)
    as (types & m & [= <-] & Hr & _).
  rewrite Hr in Heq. exists m, c3. split; [|done].
  destruct s as [opts sc uc strs ab st em]. simpl in *. subst.
  unfold Subscription.unsubscribe, Subscription.unsubscribe_task,
    Subscription.sendUnsubscribe.
  cbn -[unsubscribe]. rewrite Heq. reflexivity.
Qed.

(** *** [Subscriptions.subscribe] *)

Lemma Subscriptions_subscribe_fresh arg o key cl :
  acknowledges broker SubscribeRequest ->
  wf_conn (connection cl) = true ->
  Subscriptions.key_of arg = Ok (o, key) ->
  subscriptions cl !! key = None ->
  exists m c3,
    Subscriptions.subscribe broker arg cl
    = (Fulfilled (iterator_counter cl),
       mkClient c3 (sessionToken cl) (S (uuid_counter cl)) (S (iterator_counter cl))
         (<[key := mkSubscription o (Some m) None [iterator_counter cl] false false
                                  [EvSubscribed]]> (subscriptions cl)))
    /\ sent c3 = sent (connection cl)
                  ++ [subscribeRequest o (uuid "sub" (uuid_counter cl)) (sessionToken cl)]
    /\ wf_conn c3 = true.
Proof.
  intros Hack Hwf Hkey Hnone.
  destruct (Subscription_subscribe_first (Subscription.new o)
              (set_subscription key (Subscription.new o) cl) Hack Hwf eq_refl
              eq_refl eq_refl) as (m & c3 & Heq & Hsent & Hwf3).
  exists m, c3. split; [|done].
  unfold Subscriptions.subscribe, Subscriptions.lookup_or_create.
  rewrite Hkey, Hnone. unfold Subscriptions.run_subscribe.
  cbn [subscriptions set_subscription]. rewrite lookup_insert_eq, Heq.
  cbn. unfold set_subscription. cbn. by rewrite insert_insert_eq.
Qed.

(** A key whose subscription exists but holds no subscribe response
    (it was unsubscribed, or its subscribe failed) makes a round trip
    like a new one. *)
Lemma Subscriptions_subscribe_known arg o key cl s :
  acknowledges broker SubscribeRequest ->
  wf_conn (connection cl) = true ->
  Subscriptions.key_of arg = Ok (o, key) ->
  subscriptions cl !! key = Some s ->
  sendSubscribe_cache s = None -> stalled s = false -> aborted s = false ->
  exists m c3,
    Subscriptions.subscribe broker arg cl
    = (Fulfilled (iterator_counter cl),
       mkClient c3 (sessionToken cl) (S (uuid_counter cl)) (S (iterator_counter cl))
         (<[key := mkSubscription (sub_options s) (Some m) None
                     (streams s ++ [iterator_counter cl]) false false
                     (emitted s ++ [EvSubscribed])]> (subscriptions cl)))
    /\ sent c3 = sent (connection cl)
                  ++ [subscribeRequest (sub_options s) (uuid "sub" (uuid_counter cl))
                                       (sessionToken cl)]
    /\ wf_conn c3 = true.
Proof.
  intros Hack Hwf Hkey Hs Hc Hst Hab.
  destruct (Subscription_subscribe_first s cl Hack Hwf Hc Hst Hab)
    as (m & c3 & Heq & Hsent & Hwf3).
  exists m, c3. split; [|done].
  unfold Subscriptions.subscribe, Subscriptions.lookup_or_create.
  rewrite Hkey, Hs. unfold Subscriptions.run_subscribe. by rewrite Hs, Heq.
Qed.

Lemma Subscriptions_subscribe_again arg o key cl s m :
  Subscriptions.key_of arg = Ok (o, key) ->
  subscriptions cl !! key = Some s ->
  sendSubscribe_cache s = Some m -> stalled s = false -> aborted s = false ->
  Subscriptions.subscribe broker arg cl
  = (Fulfilled (iterator_counter cl),
     mkClient (connection cl) (sessionToken cl) (uuid_counter cl)
       (S (iterator_counter cl))
       (<[key := mkSubscription (sub_options s) (Some m) None
                   (streams s ++ [iterator_counter cl]) false false (emitted s)]>
          (subscriptions cl))).
Proof.
  intros Hkey Hs Hc Hst Hab.
  unfold Subscriptions.subscribe, Subscriptions.lookup_or_create.
  rewrite Hkey, Hs. unfold Subscriptions.run_subscribe. rewrite Hs.
  by rewrite (Subscription_subscribe_cached s m cl Hc Hst Hab).
Qed.

(** Further subscribers of a subscribed key put nothing on the wire. *)
Lemma subscribe_all_again key args :
  Forall (names_key key) args ->
  forall cl s m,
    subscriptions cl !! key = Some s ->
    sendSubscribe_cache s = Some m -> sendUnsubscribe_cache s = None ->
    stalled s = false -> aborted s = false ->
    exists subs',
      Subscriptions.subscribe_all broker args cl
      = (Fulfilled <$> seq (iterator_counter cl) (length args),
         mkClient (connection cl) (sessionToken cl) (uuid_counter cl)
                  (iterator_counter cl + length args) subs')
      /\ subs' !! key
         = Some (mkSubscription (sub_options s) (Some m) None
                   (streams s ++ seq (iterator_counter cl) (length args))
                   false false (emitted s)).
Proof.
  induction 1 as [|arg args [o Hkey] _ IH]; intros cl s m Hs Hc Hu Hst Hab.
  - exists (subscriptions cl). simpl. rewrite Nat.add_0_r, app_nil_r. split.
    + by destruct cl.
    + rewrite Hs. destruct s; simpl in *. by subst.
  - simpl. rewrite (Subscriptions_subscribe_again arg o key cl s m Hkey Hs Hc Hst Hab).
    edestruct (IH (mkClient (connection cl) (sessionToken cl) (uuid_counter cl)
                   (S (iterator_counter cl))
                   (<[key := mkSubscription (sub_options s) (Some m) None
                       (streams s ++ [iterator_counter cl]) false false (emitted s)]>
                      (subscriptions cl))))
      as (subs' & Heq & Hsub); [apply lookup_insert_eq|reflexivity..|].
    simpl in Heq, Hsub. rewrite Heq. exists subs'. split.
    + simpl. do 3 f_equal. lia.
    + rewrite Hsub. by rewrite <- app_assoc.
Qed.

(** *** Subscribers calling in the same turn *)

Lemma lookup_or_create_present arg o key cl :
  Subscriptions.key_of arg = Ok (o, key) ->
  is_Some (subscriptions cl !! key) ->
  Subscriptions.lookup_or_create arg cl = (Ok key, cl).
Proof.
  intros Hkey [s Hs]. unfold Subscriptions.lookup_or_create. by rewrite Hkey, Hs.
Qed.

Lemma lookup_or_create_creates arg o key cl :
  Subscriptions.key_of arg = Ok (o, key) ->
  exists cl1, Subscriptions.lookup_or_create arg cl = (Ok key, cl1)
    /\ is_Some (subscriptions cl1 !! key).
Proof.
  intros Hkey. unfold Subscriptions.lookup_or_create. rewrite Hkey.
  destruct (subscriptions cl !! key) as [s|] eqn:Hs.
  - exists cl. by rewrite Hs.
  - eexists. split; [done|]. simpl. rewrite lookup_insert_eq. eauto.
Qed.

Lemma run_subscribe_present key cl :
  is_Some (subscriptions cl !! key) ->
  is_Some (subscriptions (Subscriptions.run_subscribe broker key cl).2 !! key).
Proof.
  intros [s Hs]. unfold Subscriptions.run_subscribe. rewrite Hs.
  destruct (Subscription.subscribe broker s cl) as [[r s'] cl']. simpl.
  rewrite lookup_insert_eq. eauto.
Qed.

Lemma heads_same_key key args cl :
  Forall (names_key key) args ->
  is_Some (subscriptions cl !! key) ->
  Subscriptions.heads args cl = ((fun _ => Ok key) <$> args, cl).
Proof.
  induction 1 as [|arg args [o Hkey] _ IH]; intros Hs; [done|].
  simpl. rewrite (lookup_or_create_present arg o key cl Hkey Hs). by rewrite IH.
Qed.

Lemma subscribe_all_same_key key args :
  Forall (names_key key) args ->
  forall cl, is_Some (subscriptions cl !! key) ->
  Subscriptions.subscribe_all broker args cl
  = Subscriptions.bodies broker ((fun _ => Ok key) <$> args) cl.
Proof.
  induction 1 as [|arg args [o Hkey] _ IH]; intros cl Hs; [done|].
  simpl. unfold Subscriptions.subscribe.
  rewrite (lookup_or_create_present arg o key cl Hkey Hs).
  pose proof (run_subscribe_present key cl Hs) as Hs'.
  destruct (Subscriptions.run_subscribe broker key cl) as [r cl1].
  by rewrite (IH cl1 Hs').
Qed.

(** Subscribers of one key that call [subscribe] in the same turn get
    what they would get calling one after the other: the key's
    subscription is created by the first head, and its queue runs the
    bodies in call order. *)
Lemma subscribe_concurrently_same_key key args cl :
  Forall (names_key key) args ->
  Subscriptions.subscribe_concurrently broker args cl
  = Subscriptions.subscribe_all broker args cl.
Proof.
  intros Hall. destruct Hall as [|arg args [o Hkey] Hall]; [done|].
  unfold Subscriptions.subscribe_concurrently. simpl.
  unfold Subscriptions.subscribe.
  destruct (lookup_or_create_creates arg o key cl Hkey) as (cl1 & -> & Hs).
  rewrite (heads_same_key key args cl1 Hall Hs). simpl.
  pose proof (run_subscribe_present key cl1 Hs) as Hs'.
  destruct (Subscriptions.run_subscribe broker key cl1) as [r cl2].
  by rewrite (subscribe_all_same_key key args Hall cl2 Hs').
Qed.

(** *** [Subscriptions.unsubscribe] *)

Lemma Subscriptions_unsubscribe_first arg o key cl s :
  acknowledges broker UnsubscribeRequest ->
  wf_conn (connection cl) = true ->
  Subscriptions.key_of arg = Ok (o, key) ->
  subscriptions cl !! key = Some s ->
  sendUnsubscribe_cache s = None -> stalled s = false -> streams s ≠ [] ->
  exists m c3,
    Subscriptions.unsubscribe broker arg cl
    = (Fulfilled (),
       mkClient c3 (sessionToken cl) (S (uuid_counter cl)) (iterator_counter cl)
         (<[key := mkSubscription (sub_options s) None (Some m) [] (aborted s) false
                                  (emitted s ++ [EvUnsubscribed])]> (subscriptions cl)))
    /\ sent c3 = sent (connection cl)
                  ++ [unsubscribeRequest (sub_options s) (uuid "unsub" (uuid_counter cl))
                                         (sessionToken cl)]
    /\ wf_conn c3 = true.
Proof.
  intros Hack Hwf Hkey Hs Hu Hst Hne.
  destruct (Subscription_unsubscribe_first (Subscription.set_streams [] s) cl Hack Hwf)
    as (m & c3 & Heq & Hsent & Hwf3); [done..|].
  exists m, c3. split; [|done].
  unfold Subscriptions.unsubscribe, Subscription.hasPending, Subscription.return_.
  rewrite Hkey, Hs, Hst.
  destruct (streams s) as [|it its] eqn:Hstreams; [done|].
  rewrite Heq. reflexivity.
Qed.

(** With no open iterator, [unsubscribe] does nothing at all. *)
Lemma Subscriptions_unsubscribe_idle arg o key cl s :
  Subscriptions.key_of arg = Ok (o, key) ->
  subscriptions cl !! key = Some s ->
  stalled s = false -> streams s = [] ->
  Subscriptions.unsubscribe broker arg cl = (Fulfilled (), cl).
Proof.
  intros Hkey Hs Hst Hnil.
  unfold Subscriptions.unsubscribe, Subscription.hasPending, Subscription.return_.
  rewrite Hkey, Hs, Hst, Hnil. f_equal.
  unfold set_subscription. rewrite insert_id by done. by destruct cl.
Qed.

Lemma Subscriptions_unsubscribe_unknown arg o key cl :
  Subscriptions.key_of arg = Ok (o, key) ->
  subscriptions cl !! key = None ->
  Subscriptions.unsubscribe broker arg cl = (Fulfilled (), cl).
Proof.
  intros Hkey Hs. unfold Subscriptions.unsubscribe. by rewrite Hkey, Hs.
Qed.
End ClientLemmas.

Lemma mockBroker_acknowledges_subscribe : acknowledges mockBroker SubscribeRequest.
Proof.
  intros request Hty. exists [SubscribeResponse].
  exists (mkResponse SubscribeResponse (req_requestId request) "" "").
  assert (relevant [SubscribeResponse] (req_requestId request)
            (mkResponse SubscribeResponse (req_requestId request) "" "") = true) as Hrel.
  { unfold relevant. rewrite !bool_decide_eq_true_2; [done| |done].
    left. by apply list_elem_of_singleton. }
  unfold mockBroker. rewrite Hty. repeat split.
  - unfold first_relevant. cbn [List.find]. by rewrite Hrel.
  - by apply list_elem_of_singleton.
Qed.

Lemma mockBroker_acknowledges_unsubscribe : acknowledges mockBroker UnsubscribeRequest.
Proof.
  intros request Hty. exists [UnsubscribeResponse].
  exists (mkResponse UnsubscribeResponse (req_requestId request) "" "").
  assert (relevant [UnsubscribeResponse] (req_requestId request)
            (mkResponse UnsubscribeResponse (req_requestId request) "" "") = true) as Hrel.
  { unfold relevant. rewrite !bool_decide_eq_true_2; [done| |done].
    left. by apply list_elem_of_singleton. }
  unfold mockBroker. rewrite Hty. repeat split.
  - unfold first_relevant. cbn [List.find]. by rewrite Hrel.
  - by apply list_elem_of_singleton.
Qed.

(** ** Further facts used by the testable properties *)

Lemma PAIRS_table :
  PAIRS SubscribeRequest = Some [SubscribeResponse]
  /\ PAIRS UnsubscribeRequest = Some [UnsubscribeResponse]
  /\ PAIRS ResendLastRequest = Some [ResendResponseResending; ResendResponseNoResend]
  /\ PAIRS ResendFromRequest = Some [ResendResponseResending; ResendResponseNoResend]
  /\ PAIRS ResendRangeRequest = Some [ResendResponseResending; ResendResponseNoResend].
Proof. by repeat split. Qed.

Lemma PAIRS_no_error (t : MsgType) (types : list MsgType) :
  PAIRS t = Some types -> ErrorResponse ∉ types.
Proof.
  destruct t; simpl; intros Heq; try discriminate; injection Heq as <-;
    unfold ResendResponses; intros Hin;
    repeat (apply elem_of_cons in Hin as [Hin|Hin]; [discriminate|]);
    by apply elem_of_nil in Hin.
Qed.

Lemma first_relevant_app (types : list MsgType) (rid : string)
    (pre post : list Response) (m : Response) :
  first_relevant types rid pre = None ->
  relevant types rid m = true ->
  first_relevant types rid (pre ++ m :: post) = Some m.
Proof.
  unfold first_relevant. intros Hpre Hm.
  induction pre as [|x pre IH]; simpl in *; [by rewrite Hm|].
  destruct (relevant types rid x); [done|]. by apply IH.
Qed.

(** The whole story of a waiter, as a function of the inbound trace. *)
Lemma waitForResponse_deliver (types : list MsgType) (rid : string)
    (msgs : list Response) (c : Connection) :
  wf_conn c = true ->
  let i := (waitForResponse types rid c).1 in
  let c2 := deliver msgs (waitForResponse types rid c).2 in
  match first_relevant types rid msgs with
  | Some m => settled_waiter i rid types (outcome_of types m) c2
  | None => pending_waiter i rid types c2
  end.
Proof.
  intros Hwf i c2. destruct (waitForResponse_pending types rid c Hwf) as [Hi Hp].
  subst i c2. rewrite Hi. by apply deliver_pending.
Qed.

(** No closure of a waiter listens for a connection-level event. *)
Lemma wf_no_event_listener (c : Connection) (ev : EventName) :
  wf_conn c = true ->
  (forall t, ev ≠ EvMessage t) ->
  existsb is_waiter_handler (handlers_of ev (listeners c)) = false.
Proof.
  intros Hwf Hev. apply not_true_is_false. intros (h & Hin & Hh)%existsb_exists.
  apply list_elem_of_In in Hin. unfold handlers_of in Hin.
  apply list_elem_of_fmap in Hin as ([ev' h'] & -> & Hin).
  apply list_elem_of_filter in Hin as [Hev' Hin]. simpl in *. subst ev'.
  destruct h' as [i k|]; [|done].
  destruct (proj1 (wf_conn_spec c) Hwf ev i k Hin) as (w & _ & Hk).
  destruct k.
  - destruct Hk as (t & _ & ->). by apply (Hev t).
  - by apply (Hev ErrorResponse).
Qed.

Lemma emitEvent_wf (c : Connection) (ev : EventName) :
  wf_conn c = true ->
  (forall t, ev ≠ EvMessage t) ->
  emitEvent ev c = Ok c.
Proof. intros Hwf Hev. unfold emitEvent. by rewrite wf_no_event_listener. Qed.

(* ===================================================================== *)
(** * Part III: the testable properties                                   *)
(* ===================================================================== *)

(** C1: within one connected epoch, any number [n >= 1] of logical
    [subscribe] calls on a stream partition puts at most one
    [SubscribeRequest] for that key on the wire: exactly one when the
    key's subscription is new or holds no subscribe response, none when
    the response is already cached. Every one of the [n] calls is
    fulfilled: each subscriber holds its own iterator on the subscribed
    key. It makes no difference whether the subscribers call one after
    the other or all in the same turn. The broker is assumed to
    acknowledge subscribe requests, as a subscriber can only become
    subscribed on a [SubscribeResponse]; the key's subscription, if it
    exists, is neither aborted nor stuck behind a request that was never
    answered. *)
Theorem subscribe_coalesced (broker : Request -> list Response)
    (arg : OptionsArg) (others : list OptionsArg) (o : Options) (key : string)
    (cl : Client) :
  acknowledges broker SubscribeRequest ->
  wf_conn (connection cl) = true ->
  Subscriptions.key_of arg = Ok (o, key) ->
  Forall (names_key key) others ->
  let sub := default (Subscription.new o) (subscriptions cl !! key) in
  stalled sub = false ->
  aborted sub = false ->
  let n := S (length others) in
  let run := Subscriptions.subscribe_all broker (arg :: others) cl in
  let requests :=
    match sendSubscribe_cache sub with
    | Some _ => []
    | None => [subscribeRequest (sub_options sub) (uuid "sub" (uuid_counter cl))
                                (sessionToken cl)]
    end in
  sent (connection run.2) = sent (connection cl) ++ requests
  /\ (length requests <= 1)%nat
  /\ run.1 = Fulfilled <$> seq (iterator_counter cl) n
  /\ Subscriptions.count arg run.2 = Ok (length (streams sub) + n)%nat
  /\ subscribed_at key run.2
  /\ Subscriptions.subscribe_concurrently broker (arg :: others) cl = run.
Proof.
  intros Hack Hwf Hkey Hothers sub Hst Hab n run requests.
  assert (Subscriptions.subscribe_concurrently broker (arg :: others) cl = run) as Hsame.
  { apply (subscribe_concurrently_same_key broker key).
    constructor; [by exists o|done]. }
  revert Hsame.
  generalize (Subscriptions.subscribe_concurrently broker (arg :: others) cl).
  intros concurrent ->.
  assert (exists c1 u1 s1 m,
            Subscriptions.subscribe broker arg cl
            = (Fulfilled (iterator_counter cl),
               mkClient c1 (sessionToken cl) u1 (S (iterator_counter cl))
                        (<[key := s1]> (subscriptions cl)))
            /\ sent c1 = sent (connection cl) ++ requests
            /\ s1 = mkSubscription (sub_options s1) (Some m) None
                      (streams sub ++ [iterator_counter cl]) false false (emitted s1))
    as (c1 & u1 & s1 & m & Hfirst & Hsent & Hs1).
  { subst sub requests.
    destruct (subscriptions cl !! key) as [s|] eqn:Hs; simpl in *.
    - destruct (sendSubscribe_cache s) as [m|] eqn:Hc.
      + exists (connection cl), (uuid_counter cl). eexists. exists m. split; [|split].
        * by apply (Subscriptions_subscribe_again broker arg o key cl s m).
        * by rewrite app_nil_r.
        * done.
      + destruct (Subscriptions_subscribe_known broker arg o key cl s Hack Hwf Hkey Hs
                    Hc Hst Hab) as (m & c3 & Heq & Hsent & _).
        exists c3, (S (uuid_counter cl)). eexists. exists m. by split; [|split].
    - destruct (Subscriptions_subscribe_fresh broker arg o key cl Hack Hwf Hkey Hs)
        as (m & c3 & Heq & Hsent & _).
      exists c3, (S (uuid_counter cl)). eexists. exists m. by split; [|split]. }
  subst n run. simpl. rewrite Hfirst.
  destruct (subscribe_all_again broker key others Hothers
              (mkClient c1 (sessionToken cl) u1 (S (iterator_counter cl))
                 (<[key := s1]> (subscriptions cl))) s1 m (lookup_insert_eq _ _ _))
    as (subs' & Hrun & Hsub); [by rewrite Hs1..|].
  rewrite Hrun. simpl in *. split; [done|]. split.
  { subst requests. destruct (sendSubscribe_cache sub); simpl; lia. }
  split; [done|]. split; [|split; [|done]].
  - unfold Subscriptions.count, Subscriptions.get. rewrite Hkey. simpl.
    rewrite Hsub. simpl. unfold Subscription.count. simpl.
    rewrite Hs1. simpl. rewrite !length_app, length_seq. simpl. f_equal. lia.
  - unfold subscribed_at. simpl. rewrite Hsub. eauto 10.
Qed.

Lemma subscribe_coalesced_witness :
  let given := mkOptions (Some "s1") None None None None None None in
  let run := Subscriptions.subscribe_all mockBroker [ArgString "s1"; ArgObject given]
               (new_client "session-token") in
  sent (connection run.2)
    = [] ++ [subscribeRequest (mkOptions (Some "s1") (Some 0) None None None None None)
                              "sub.0" "session-token"]
  /\ (1 <= 1)%nat
  /\ run.1 = [Fulfilled 0%nat; Fulfilled 1%nat]
  /\ Subscriptions.count (ArgString "s1") run.2 = Ok 2%nat
  /\ subscribed_at "s1|0" run.2
  /\ Subscriptions.subscribe_concurrently mockBroker [ArgString "s1"; ArgObject given]
       (new_client "session-token") = run.
Proof.
  intros given.
  apply (subscribe_coalesced mockBroker (ArgString "s1") [ArgObject given]
           (mkOptions (Some "s1") (Some 0) None None None None None) "s1|0"
           (new_client "session-token")).
  - apply mockBroker_acknowledges_subscribe.
  - reflexivity.
  - reflexivity.
  - repeat constructor. by eexists.
  - reflexivity.
  - reflexivity.
Defined.

(** C4: the waiter registered for a request resolves with the first
    inbound message that carries the request id and has a type expected
    for the request type ([PAIRS]), and rejects with an error carrying
    [errorMessage] and [errorCode] when an [ErrorResponse] with that
    request id comes first; either way all of the waiter's handlers are
    removed from the connection. *)
Theorem waitForRequestResponse_settles (c : Connection) (request : Request)
    (types : list MsgType) (pre post : list Response) (m : Response) :
  wf_conn c = true ->
  PAIRS (req_type request) = Some types ->
  first_relevant types (req_requestId request) pre = None ->
  res_requestId m = req_requestId request ->
  let i := (waitForRequestResponse request c).1 in
  let c2 := deliver (pre ++ m :: post) (waitForRequestResponse request c).2 in
  (res_type m ∈ types ->
     waiter_state i c2 = Some (Resolved m) /\ listeners_of_waiter i c2 = [])
  /\ (res_type m = ErrorResponse ->
        waiter_state i c2
          = Some (Rejected (mkError (res_errorMessage m) (Some (res_errorCode m))))
        /\ listeners_of_waiter i c2 = []).
Proof.
  intros Hwf Hty Hpre Hid i c2. subst i c2.
  unfold waitForRequestResponse. rewrite Hty.
  pose proof (waitForResponse_deliver types (req_requestId request)
                (pre ++ m :: post) c Hwf) as Hd. cbv zeta in Hd.
  split; intros Hm.
  - rewrite (first_relevant_app _ _ pre post m Hpre) in Hd.
    + destruct Hd as (_ & Hw & _ & Hl). split; [|done].
      unfold waiter_state. rewrite Hw. simpl. unfold outcome_of.
      by rewrite bool_decide_eq_true_2.
    + unfold relevant. rewrite !bool_decide_eq_true_2; auto.
  - rewrite (first_relevant_app _ _ pre post m Hpre) in Hd.
    + destruct Hd as (_ & Hw & _ & Hl). split; [|done].
      unfold waiter_state. rewrite Hw. simpl. unfold outcome_of.
      rewrite bool_decide_eq_false_2; [done|].
      rewrite Hm. by eapply PAIRS_no_error.
    + unfold relevant. rewrite !bool_decide_eq_true_2; auto.
Qed.

Lemma waitForRequestResponse_settles_witness :
  let request := subscribeRequest (mkOptions (Some "s1") (Some 0) None None None None None)
                                  "sub.0" "session-token" in
  let pre := [mkResponse SubscribeResponse "sub.7" "" "";
              mkResponse UnsubscribeResponse "sub.0" "" ""] in
  let m := mkResponse SubscribeResponse "sub.0" "" "" in
  let post := [mkResponse ErrorResponse "sub.0" "ERR" "too late"] in
  let c2 := deliver (pre ++ m :: post)
              (waitForRequestResponse request empty_connection).2 in
  waiter_state 0 c2 = Some (Resolved m) /\ listeners_of_waiter 0 c2 = [].
Proof.
  intros request pre m post c2.
  apply (waitForRequestResponse_settles empty_connection request [SubscribeResponse]
           pre post m).
  - reflexivity.
  - reflexivity.
  - reflexivity.
  - reflexivity.
  - by apply list_elem_of_singleton.
Defined.

(** C5, as the code has it: [waitForResponse] listens for the expected
    response types and for [ErrorResponse] only. When the connection
    emits [disconnected], no handler of a waiter runs: every pending
    waiter stays pending, with its handlers still registered, and a
    response that arrives afterwards still settles it. *)
Theorem disconnect_leaves_waiter_pending (c : Connection) (i : nat) (rid : string)
    (types : list MsgType) :
  pending_waiter i rid types c ->
  exists c',
    emitEvent EvDisconnected c = Ok c'
    /\ waiter_state i c' = Some Pending
    /\ listeners_of_waiter i c' = registered i types
    /\ forall m, relevant types rid m = true ->
         waiter_state i (emitMessage m c') = Some (outcome_of types m).
Proof.
  intros Hp. exists c. split; [|split; [|split]].
  - apply emitEvent_wf; [by destruct Hp|done].
  - by eapply pending_state.
  - by destruct Hp as (_ & _ & Hl).
  - intros m Hm. eapply settled_state. by apply emitMessage_relevant.
Qed.

Lemma disconnect_leaves_waiter_pending_witness :
  let c := (waitForRequestResponse
              (subscribeRequest (mkOptions (Some "s1") (Some 0) None None None None None)
                                "sub.0" "session-token")
              (on EvDisconnected (Foreign 0) empty_connection)).2 in
  exists c',
    emitEvent EvDisconnected c = Ok c'
    /\ waiter_state 0 c' = Some Pending
    /\ listeners_of_waiter 0 c' = registered 0 [SubscribeResponse]
    /\ forall m, relevant [SubscribeResponse] "sub.0" m = true ->
         waiter_state 0 (emitMessage m c') = Some (outcome_of [SubscribeResponse] m).
Proof.
  intros c.
  apply (disconnect_leaves_waiter_pending c 0 "sub.0" [SubscribeResponse]).
  repeat split; reflexivity.
Defined.

(** C5, as stated, fails: a subscribe request is pending, the connection
    disconnects, and the waiter is still pending, not rejected. *)
Lemma disconnect_does_not_reject_waiter :
  let c := (waitForRequestResponse
              (subscribeRequest (mkOptions (Some "s1") (Some 0) None None None None None)
                                "sub.0" "session-token")
              (on EvDisconnected (Foreign 0) empty_connection)).2 in
  waiter_state 0 c = Some Pending
  /\ exists c', emitEvent EvDisconnected c = Ok c'
       /\ waiter_state 0 c' = Some Pending
       /\ ~ (exists e, waiter_state 0 c' = Some (Rejected e)).
Proof.
  intros c. split; [reflexivity|]. exists c. repeat split.
  intros [e He]. discriminate He.
Qed.






(** ** Signing *)

Lemma signData_ok (signer : Signer) (data : string) (t : Z) :
  t = SIGNATURE_ETH_LEGACY \/ t = SIGNATURE_ETH ->
  Signer.signData signer data t = Ok (sign signer data).
Proof. unfold Signer.signData. by intros [-> | ->]. Qed.



(** ** Partition assignment *)

Section PartitionLemmas.
Variable md5 : string -> list Z.
Hypothesis md5_length : forall s, length (md5 s) = 16%nat.

Lemma readInt32LE_digest (s : string) : exists h, readInt32LE (md5 s) = Some h.
Proof.
  pose proof (md5_length s) as Hlen.
  destruct (md5 s) as [|b0 [|b1 [|b2 [|b3 rest]]]]; try discriminate.
  simpl. eauto.
Qed.

Lemma hash_keeps_cache_ok (s : string) (cache : gmap string (list Z)) :
  cache_ok md5 cache -> cache_ok md5 (hash md5 s cache).2.
Proof.
  intros Hok. unfold hash. destruct (get_property cache s); [done|]. simpl.
  intros k d. destruct (decide (s = k)) as [->|Hne].
  - rewrite lookup_insert_eq. by intros [= <-].
  - rewrite lookup_insert_ne by done. apply Hok.
Qed.

(** A key that is not a member of [Object.prototype] hashes to its
    digest, whether cached or not. *)
Lemma hash_plain_key (s : string) (cache : gmap string (list Z)) :
  cache_ok md5 cache -> s ∉ objectPrototype ->
  (hash md5 s cache).1 = Digest (md5 s).
Proof.
  intros Hok Hs. unfold hash, get_property.
  destruct (cache !! s) as [d|] eqn:Hd.
  - simpl. by rewrite (Hok _ _ Hd).
  - by rewrite bool_decide_eq_false_2.
Qed.

(** The explicit error branch is taken exactly for a falsy count. *)
Lemma computeStreamPartition_falsey (partitionCount : option Z)
    (partitionKey : option string) (rnd : Z) (cache : gmap string (list Z)) :
  (computeStreamPartition md5 partitionCount partitionKey rnd cache).1
  = Throw (error "partitionCount is falsey!")
  <-> partitionCount = None \/ partitionCount = Some 0.
Proof.
  unfold computeStreamPartition. split.
  - destruct partitionCount as [[|n|n]|]; auto.
    + destruct (Z.pos n =? 1); [discriminate|].
      destruct (truthy_string partitionKey); [|discriminate].
      destruct (hash md5 (default "" partitionKey) cache) as [[bytes|name] cache'];
        [|discriminate].
      destruct (readInt32LE bytes); discriminate.
    + simpl. destruct (truthy_string partitionKey); [|discriminate].
      destruct (hash md5 (default "" partitionKey) cache) as [[bytes|name] cache'];
        [|discriminate].
      destruct (readInt32LE bytes); discriminate.
  - by intros [-> | ->].
Qed.

(** X8: for a count of at least one and a key outside
    [Object.prototype] (or no key), [computeStreamPartition] returns a
    partition in range: [0 <= p < partitionCount]. *)
Lemma computeStreamPartition_in_range (n : Z) (partitionKey : option string)
    (rnd : Z) (cache : gmap string (list Z)) :
  cache_ok md5 cache ->
  1 <= n ->
  0 <= rnd < 2^53 ->
  (forall k, partitionKey = Some k -> k ∉ objectPrototype) ->
  exists p,
    (computeStreamPartition md5 (Some n) partitionKey rnd cache).1 = Ok p
    /\ 0 <= p < n.
Proof.
  intros Hok Hn Hrnd Hkey. unfold computeStreamPartition.
  destruct n as [|n|n]; [lia| |lia].
  destruct (Z.pos n =? 1) eqn:Hone; [exists 0; simpl; split; [done|lia]|].
  destruct (truthy_string partitionKey) eqn:Htr.
  - destruct partitionKey as [k|]; [|done]. simpl default.
    pose proof (hash_plain_key k cache Hok (Hkey k eq_refl)) as Hh.
    destruct (hash md5 k cache) as [buffer cache']. simpl in Hh. subst buffer.
    destruct (readInt32LE_digest k) as [h ->].
    eexists. split; [reflexivity|]. apply Z.rem_bound_pos; lia.
  - eexists. split; [reflexivity|]. split.
    + apply Z.div_pos; lia.
    + apply Z.div_lt_upper_bound; nia.
Qed.
End PartitionLemmas.

(** C10 fails on the code for a key that [Object.prototype] defines.
    [cachedHashes] is a plain object, so [cachedHashes["constructor"]] is
    not [undefined] although nothing was cached: [hash] returns the
    inherited member instead of a digest, and [readInt32LE] is not a
    function of it. With two partitions and the key ["constructor"],
    [computeStreamPartition] throws a [TypeError] instead of returning a
    partition, whatever the digest function and the cache hold. *)
Theorem computeStreamPartition_inherited_key (md5 : string -> list Z) (rnd : Z) :
  computeStreamPartition md5 (Some 2) (Some "constructor") rnd ∅
  = (Throw (error "buffer.readInt32LE is not a function"), ∅).
Proof. reflexivity. Qed.

(** ** The shared verification handle *)

Lemma call_times_cached (k p : nat) (v : Verifier.Verifier) :
  Verifier.call_times k (Some p) v = (replicate k p, Some p, v).
Proof.
  induction k as [|k IH]; [done|]. simpl. by rewrite IH.
Qed.

Lemma call_times_first (k : nat) (v : Verifier.Verifier) :
  Verifier.call_times (S k) None v
  = (replicate (S k) (Verifier.next_promise v), Some (Verifier.next_promise v),
     (Verifier.verify v).2).
Proof. simpl. by rewrite call_times_cached. Qed.

Lemma fan_out_cached (calls : list nat) (p : nat) (v : Verifier.Verifier) :
  Verifier.fan_out calls (Some p) v
  = ((fun k => replicate k p) <$> calls, Some p, v).
Proof.
  induction calls as [|k calls IH]; [done|].
  simpl. by rewrite call_times_cached, IH.
Qed.

Lemma fan_out_new (calls : list nat) (v : Verifier.Verifier) :
  let '(observed, _, v') := Verifier.fan_out calls None v in
  observed = (fun k => replicate k (Verifier.next_promise v)) <$> calls
  /\ Verifier.invocations v'
     = (Verifier.invocations v + if forallb (Nat.eqb 0) calls then 0 else 1)%nat.
Proof.
  induction calls as [|k calls IH]; [simpl; split; [done|lia]|].
  destruct k as [|k].
  - simpl. destruct (Verifier.fan_out calls None v) as [[observed h] v'].
    destruct IH as [-> ->]. by split.
  - cbn [Verifier.fan_out]. rewrite call_times_first, fan_out_cached.
    split; [done|]. simpl. lia.
Qed.

(** C2: for a delivered message routed to any number of subscriptions,
    each calling the verification function handed to it any number of
    times, every call returns the identical promise, the one of the first
    call, and the verifier is invoked at most once for the delivery
    (once if anybody asks, never otherwise). *)
Theorem verification_shared (calls : list nat) (v : Verifier.Verifier) :
  let run := Verifier.deliver calls v in
  run.1 = (fun k => replicate k (Verifier.next_promise v)) <$> calls
  /\ (forall p q, p ∈ mjoin run.1 -> q ∈ mjoin run.1 -> p = q)
  /\ Verifier.invocations run.2
     = (Verifier.invocations v + if forallb (Nat.eqb 0) calls then 0 else 1)%nat
  /\ (Verifier.invocations run.2 <= Verifier.invocations v + 1)%nat.
Proof.
  unfold Verifier.deliver, Verifier.new_handle.
  pose proof (fan_out_new calls v) as H.
  destruct (Verifier.fan_out calls None v) as [[observed h] v'].
  destruct H as [-> Hinv]. simpl. split; [done|]. split; [|split].
  - assert (forall p, p ∈ mjoin ((fun k => replicate k (Verifier.next_promise v)) <$> calls)
                      -> p = Verifier.next_promise v) as Hall.
    { intros p Hp. apply list_elem_of_join in Hp as (ps & Hp & Hps).
      apply list_elem_of_fmap in Hps as (k & -> & _).
      by apply elem_of_replicate in Hp as [-> _]. }
    intros p q Hp Hq. by rewrite (Hall p Hp), (Hall q Hq).
  - done.
  - rewrite Hinv. destruct (forallb (Nat.eqb 0) calls); lia.
Qed.

(** ** Gap detection *)

Lemma ref_ltb_spec (a b : MessageRef) :
  Ordering.ref_ltb a b = true <->
  timestamp a < timestamp b
  \/ (timestamp a = timestamp b /\ sequenceNumber a < sequenceNumber b).
Proof.
  unfold Ordering.ref_ltb.
  rewrite orb_true_iff, andb_true_iff, !Z.ltb_lt, Z.eqb_eq. tauto.
Qed.

Lemma ref_ltb_irrefl (a : MessageRef) : Ordering.ref_ltb a a = false.
Proof. apply not_true_is_false. rewrite ref_ltb_spec. lia. Qed.

Lemma ref_ltb_trans (a b c : MessageRef) :
  Ordering.ref_ltb a b = true -> Ordering.ref_ltb b c = true ->
  Ordering.ref_ltb a c = true.
Proof. rewrite !ref_ltb_spec. lia. Qed.

Lemma ref_ltb_asym (a b : MessageRef) :
  Ordering.ref_ltb a b = true -> Ordering.ref_leb b a = false.
Proof.
  intros Hab. unfold Ordering.ref_leb. apply orb_false_iff. split.
  - apply not_true_is_false. intros Hba.
    pose proof (ref_ltb_trans _ _ _ Hab Hba) as Haa.
    by rewrite ref_ltb_irrefl in Haa.
  - apply bool_decide_eq_false. intros ->. by rewrite ref_ltb_irrefl in Hab.
Qed.

(** Once the gap fill of a chain has completed, the next gap on the
    chain is requested again. *)
Lemma gap_requested_after_fill (sid : string) (partition : Z) (rid token : string)
    (from to : MessageRef) (publisherId msgChainId : string) (g : Ordering.GapFiller) :
  Ordering.issued
    (Ordering.on_gap sid partition rid token
       (Ordering.Gap from to publisherId msgChainId)
       (Ordering.on_gap_filled publisherId msgChainId g))
  = Ordering.issued g
    ++ [Ordering.rangeRequest sid partition rid token from to publisherId msgChainId].
Proof.
  unfold Ordering.on_gap, Ordering.on_gap_filled. cbn [Ordering.in_progress].
  rewrite bool_decide_eq_false_2; [done|].
  rewrite list_elem_of_filter. tauto.
Qed.

(** C3, as the tests have it: when a message with reference [last] has
    been delivered and the next message [m2] of the chain names a
    previous reference strictly greater than [last], [m2] is delivered
    and exactly one gap event is emitted, from [last] with the sequence
    number incremented by one, to the previous reference of [m2] itself.
    While the gap fill of a chain is in flight, a further gap on the
    chain issues no further [ResendRangeRequest]. *)
Theorem gap_detected (m2 : StreamMessage) (last prev : MessageRef) :
  prevMsgRef m2 = Some prev ->
  Ordering.ref_ltb last prev = true ->
  Ordering.ref_ltb prev (msg_ref m2) = true ->
  let gap := Ordering.Gap (mkRef (timestamp last) (sequenceNumber last + 1)) prev
               (id_publisherId (messageId m2)) (id_msgChainId (messageId m2)) in
  Ordering.on_message m2 (Some last) = (Some (msg_ref m2), [Ordering.Delivered m2; gap])
  /\ forall sid partition rid rid' token g from' to',
       (id_publisherId (messageId m2), id_msgChainId (messageId m2))
         ∉ Ordering.in_progress g ->
       let g1 := Ordering.on_gap sid partition rid token gap g in
       Ordering.issued g1
       = Ordering.issued g
         ++ [Ordering.rangeRequest sid partition rid token
               (mkRef (timestamp last) (sequenceNumber last + 1)) prev
               (id_publisherId (messageId m2)) (id_msgChainId (messageId m2))]
       /\ Ordering.on_gap sid partition rid' token
            (Ordering.Gap from' to' (id_publisherId (messageId m2))
                          (id_msgChainId (messageId m2))) g1
          = g1.
Proof.
  intros Hprev Hlt Hlt2 gap. split.
  - unfold Ordering.on_message. rewrite Hprev.
    rewrite bool_decide_eq_false_2.
    + rewrite (ref_ltb_asym last (msg_ref m2)); [done|].
      by eapply ref_ltb_trans.
    + intros [= ->]. by rewrite ref_ltb_irrefl in Hlt.
  - intros sid partition rid rid' token g from' to' Hfree g1.
    assert (g1 = Ordering.mkGapFiller
                   (Ordering.in_progress g
                    ++ [(id_publisherId (messageId m2), id_msgChainId (messageId m2))])
                   (Ordering.issued g
                    ++ [Ordering.rangeRequest sid partition rid token
                          (mkRef (timestamp last) (sequenceNumber last + 1)) prev
                          (id_publisherId (messageId m2))
                          (id_msgChainId (messageId m2))])) as ->.
    { subst g1 gap. unfold Ordering.on_gap. by rewrite bool_decide_eq_false_2. }
    split; [done|].
    unfold Ordering.on_gap. cbn [Ordering.in_progress].
    rewrite bool_decide_eq_true_2; [done|].
    apply elem_of_app. right. by apply list_elem_of_singleton.
Qed.

Lemma gap_detected_witness :
  let m2 := mkStreamMessage (mkMessageID "streamId" 0 4 0 "publisherId" "1")
                            (Some (mkRef 3 0)) "{}" 27 0 SIGNATURE_NONE (Some "") in
  Ordering.on_message m2 (Some (mkRef 1 0))
  = (Some (mkRef 4 0),
     [Ordering.Delivered m2; Ordering.Gap (mkRef 1 1) (mkRef 3 0) "publisherId" "1"]).
Proof.
  intros m2.
  apply (gap_detected m2 (mkRef 1 0) (mkRef 3 0) eq_refl eq_refl eq_refl).
Defined.

(** C3, as stated, fails on the scenario of the CombinedSubscription
    test (and of S4): after the message [(1,0)], the message [(4,0)] with
    previous reference [(3,0)] yields the gap [(1,1)]..[(3,0)]. Its end
    is the previous reference itself, not its predecessor [(3,-1)]. *)
Lemma gap_ends_at_previous_reference :
  let msg1 := mkStreamMessage (mkMessageID "streamId" 0 1 0 "publisherId" "1")
                              None "{}" 27 0 SIGNATURE_NONE (Some "") in
  let msg4 := mkStreamMessage (mkMessageID "streamId" 0 4 0 "publisherId" "1")
                              (Some (mkRef 3 0)) "{}" 27 0 SIGNATURE_NONE (Some "") in
  (Ordering.on_messages [msg1; msg4] None).2
  = [Ordering.Delivered msg1; Ordering.Delivered msg4;
     Ordering.Gap (mkRef 1 1) (mkRef 3 0) "publisherId" "1"]
  /\ Ordering.predecessor (mkRef 3 0) = mkRef 3 (-1)
  /\ Ordering.Gap (mkRef 1 1) (Ordering.predecessor (mkRef 3 0)) "publisherId" "1"
     ∉ (Ordering.on_messages [msg1; msg4] None).2.
Proof.
  intros msg1 msg4. split; [reflexivity|]. split; [reflexivity|].
  intros Hin. repeat (apply elem_of_cons in Hin as [Hin|Hin]; [discriminate|]).
  by apply elem_of_nil in Hin.
Qed.

(** ** Unicast routing *)

Section UnicastLemmas.
Variable serialize : Dispatcher.Unicast -> string.

(** C8: an inbound [UnicastMessage] is handed to the subscriptions that
    have a pending resend with the message's request id, and to no
    other; when no pending resend matches, the client emits an error
    whose message starts with "Received unexpected UnicastMessage", no
    handler is invoked and no subscription changes. *)
Theorem unicast_routing (u : Dispatcher.Unicast) (c : Dispatcher.LegacyClient) :
  let c' := Dispatcher.on_unicast serialize u c in
  length (Dispatcher.subs c') = length (Dispatcher.subs c)
  /\ (forall i s, Dispatcher.subs c !! i = Some s ->
        Dispatcher.subs c' !! i
        = Some (if Dispatcher.awaits (Dispatcher.u_requestId u) s
                then Dispatcher.handleResentMessage u s else s))
  /\ (existsb (Dispatcher.awaits (Dispatcher.u_requestId u)) (Dispatcher.subs c) = true ->
        Dispatcher.errors c' = Dispatcher.errors c)
  /\ (existsb (Dispatcher.awaits (Dispatcher.u_requestId u)) (Dispatcher.subs c) = false ->
        Dispatcher.subs c' = Dispatcher.subs c
        /\ exists e, Dispatcher.errors c' = Dispatcher.errors c ++ [e]
             /\ message e
                = "Received unexpected UnicastMessage" +:+ " message " +:+ serialize u).
Proof.
  unfold Dispatcher.on_unicast.
  destruct (existsb (Dispatcher.awaits (Dispatcher.u_requestId u)) (Dispatcher.subs c))
    eqn:Hex; simpl.
  - split; [by rewrite length_fmap|]. split; [|by split].
    intros i s Hs. by rewrite list_lookup_fmap, Hs.
  - split; [done|]. split; [|split; [done|]].
    + intros i s Hs. rewrite Hs. f_equal.
      destruct (Dispatcher.awaits (Dispatcher.u_requestId u) s) eqn:Haw; [|done].
      assert (existsb (Dispatcher.awaits (Dispatcher.u_requestId u)) (Dispatcher.subs c)
              = true) as Htrue; [|congruence].
      apply existsb_exists. exists s. split; [|done].
      apply list_elem_of_In. by eapply list_elem_of_lookup_2.
    + intros _. split; [done|]. eexists. split; [done|]. reflexivity.
Qed.
End UnicastLemmas.

Lemma unicast_routing_witness :
  let m := mkStreamMessage (mkMessageID "stream1" 0 1 0 "" "") None "{}" 27 0
                           SIGNATURE_NONE (Some "") in
  let sub1 := Dispatcher.mkSub 0 Dispatcher.SSubscribed ["request.1"] [] in
  let sub2 := Dispatcher.mkSub 1 Dispatcher.SSubscribed [] [] in
  let c := Dispatcher.mkDispatcher [sub1; sub2] [] in
  let c' := Dispatcher.on_unicast (fun _ => "[...]")
              (Dispatcher.mkUnicast "unknown requestId" m) c in
  Dispatcher.subs c' = [sub1; sub2]
  /\ exists e, Dispatcher.errors c' = [] ++ [e]
       /\ message e = "Received unexpected UnicastMessage" +:+ " message " +:+ "[...]".
Proof.
  intros m sub1 sub2 c c'.
  destruct (unicast_routing (fun _ => "[...]")
              (Dispatcher.mkUnicast "unknown requestId" m) c) as (_ & _ & _ & H).
  apply H. reflexivity.
Defined.

(* ===================================================================== *)
(** * Part IV: further properties of the code                             *)
(* ===================================================================== *)

(** ** Keys and their characters *)

Lemma numeric_app (s t : string) : numeric (s +:+ t) = numeric s && numeric t.
Proof.
  induction s as [|a s IH]; simpl; [done|]. rewrite IH. by rewrite andb_assoc.
Qed.

Lemma pretty_N_char_numeric (x : N) : numeric_char (pretty_N_char x) = true.
Proof. unfold pretty_N_char. by repeat case_match. Qed.

Lemma pretty_N_go_numeric (x : N) (s : string) :
  numeric s = true -> numeric (pretty_N_go x s) = true.
Proof.
  revert s. induction (N.lt_wf_0 x) as [x _ IH]; intros s Hs.
  assert (x = 0 \/ 0 < x)%N as [->|Hx] by lia; [by rewrite pretty_N_go_0|].
  rewrite pretty_N_go_step by done. apply IH; [by apply N.div_lt|].
  simpl. by rewrite pretty_N_char_numeric.
Qed.

Lemma last_char_pretty_N_go (x : N) (s : string) :
  s ≠ "" -> last_char (pretty_N_go x s) = last_char s.
Proof.
  revert s. induction (N.lt_wf_0 x) as [x _ IH]; intros s Hs.
  assert (x = 0 \/ 0 < x)%N as [->|Hx] by lia; [by rewrite pretty_N_go_0|].
  rewrite pretty_N_go_step by done. rewrite IH; [|by apply N.div_lt|done].
  by destruct s.
Qed.

Lemma pretty_N_numeric (x : N) :
  numeric (pretty x) = true /\ ends_numeric (pretty x) = true.
Proof.
  unfold pretty, pretty_N. case_decide as Hx; [done|]. split.
  - by apply pretty_N_go_numeric.
  - rewrite pretty_N_go_step by lia. unfold ends_numeric.
    rewrite last_char_pretty_N_go by done. simpl. apply pretty_N_char_numeric.
Qed.

Lemma pretty_Z_numeric (z : Z) :
  numeric (pretty z) = true /\ ends_numeric (pretty z) = true.
Proof.
  destruct z as [|p|p]; [done|apply (pretty_N_numeric (N.pos p))|].
  destruct (pretty_N_numeric (N.pos p)) as [Hn He].
  change (pretty (Z.neg p)) with ("-" +:+ pretty (N.pos p)). split.
  - by rewrite numeric_app, Hn.
  - unfold ends_numeric in *. simpl.
    destruct (pretty (N.pos p)) eqn:Hp; [done|]. exact He.
Qed.

Lemma last_char_app (s t : string) : t ≠ "" -> last_char (s +:+ t) = last_char t.
Proof.
  intros Ht. induction s as [|a s IH]; [done|]. simpl.
  destruct (s +:+ t) eqn:Hst; [|done].
  destruct s; [|done]. by destruct t.
Qed.

Lemma ends_numeric_nonempty (s : string) : ends_numeric s = true -> s ≠ "".
Proof. by destruct s. Qed.

(** A string that ends in a rendered number is no member of
    [Object.prototype]. *)
Lemma numbered_key_own (s : string) (p : Z) : s +:+ pretty p ∉ objectPrototype.
Proof.
  intros Hin. destruct (pretty_Z_numeric p) as [_ He].
  assert (ends_numeric (s +:+ pretty p) = true) as Hend.
  { unfold ends_numeric in *. rewrite last_char_app; [done|].
    by apply ends_numeric_nonempty. }
  assert (forallb (fun n => negb (ends_numeric n)) objectPrototype = true) as Hall
    by reflexivity.
  rewrite forallb_forall in Hall. apply list_elem_of_In in Hin.
  specialize (Hall _ Hin). by rewrite Hend in Hall.
Qed.

(** The separator of [SubKey] splits a key in one way only. *)
Lemma bar_split (s s' p p' : string) :
  numeric p = true -> numeric p' = true ->
  s +:+ "|" +:+ p = s' +:+ "|" +:+ p' -> s = s' /\ p = p'.
Proof.
  revert s'. induction s as [|a s IH]; intros [|a' s'] Hp Hp' Heq.
  - by injection Heq.
  - injection Heq as <- Hq. change (p = s' +:+ "|" +:+ p') in Hq. subst p.
    rewrite numeric_app in Hp. by destruct (numeric s').
  - injection Heq as -> Hq. change (s +:+ "|" +:+ p = p') in Hq. subst p'.
    rewrite numeric_app in Hp'. by destruct (numeric s).
  - injection Heq as <- Heq. destruct (IH s' Hp Hp' Heq) as [-> ->]. done.
Qed.

Lemma SubKey_inj (o1 o2 : Options) (key : string) :
  SubKey o1 = Ok key -> SubKey o2 = Ok key ->
  streamId o1 = streamId o2 /\ partition_of o1 = partition_of o2.
Proof.
  unfold SubKey. destruct (streamId o1) as [s1|], (streamId o2) as [s2|]; try done.
  intros [= <-] [= Heq].
  apply bar_split in Heq as [-> Hp]; try apply pretty_Z_numeric.
  by apply (inj pretty) in Hp.
Qed.

(** X1: [SubKey] gives two option objects the same key only if they
    name the same stream id and the same partition (an absent partition
    counting as 0): distinct stream partitions never share an entry of
    the registry. *)
Theorem SubKey_injective (o1 o2 : Options) (key : string) :
  SubKey o1 = Ok key -> SubKey o2 = Ok key ->
  streamId o1 = streamId o2 /\ partition_of o1 = partition_of o2.
Proof. apply SubKey_inj. Qed.

Lemma SubKey_injective_witness :
  streamId (mkOptions (Some "s1") None None None None None None)
  = streamId (mkOptions (Some "s1") (Some 0) (Some 5) None None None None)
  /\ partition_of (mkOptions (Some "s1") None None None None None None)
     = partition_of (mkOptions (Some "s1") (Some 0) (Some 5) None None None None).
Proof.
  apply (SubKey_injective _ _ "s1|0"); reflexivity.
Defined.

(** X2: a message passes the filter of a message stream exactly when
    its stream id and partition make the key of the stream's options:
    the filter of [getIsMatchingStreamMessage] and the registry key of
    [SubKey] agree. *)
Theorem matching_iff_same_key (o : Options) (m : StreamMessage) (key : string) :
  SubKey o = Ok key ->
  (getIsMatchingStreamMessage o m = true
   <-> SubKey (mkOptions (Some (id_streamId (messageId m)))
                         (Some (id_streamPartition (messageId m)))
                         None None None None None) = Ok key).
Proof.
  intros Hkey. unfold getIsMatchingStreamMessage. split.
  - case_bool_decide as Hs; [|done]. case_bool_decide as Hp; [|done]. intros _.
    unfold SubKey in *. simpl. destruct (streamId o) as [s|]; [|done].
    unfold partition_of in *. simpl. injection Hs as <-. by rewrite <- Hp.
  - intros Hm. destruct (SubKey_inj o _ key Hkey Hm) as [Hs Hp].
    simpl in Hs. unfold partition_of in Hp at 2. simpl in Hp.
    by rewrite !bool_decide_eq_true_2.
Qed.

Lemma matching_iff_same_key_witness :
  let o := mkOptions (Some "s1") (Some 2) None None None None None in
  let m := mkStreamMessage (mkMessageID "s1" 2 1529549961116 0 "publisher" "chain")
                           None "{}" 27 0 SIGNATURE_NONE None in
  getIsMatchingStreamMessage o m = true
  <-> SubKey (mkOptions (Some "s1") (Some 2) None None None None None) = Ok "s1|2".
Proof.
  intros o m. apply (matching_iff_same_key o m "s1|2"). reflexivity.
Defined.

(** ** Message ids and previous references *)

Section ChainLemmas.
Variable msgChainId : string.

(** The chain key ends in the partition number, so the lookup in
    [publishedStreams] never reaches [Object.prototype]. *)
Lemma published_numbered (ps : gmap string PublishedStream) (s : string) (p : Z) :
  published ps (s +:+ pretty p) = OwnEntry <$> ps !! (s +:+ pretty p).
Proof.
  unfold published. destruct (ps !! _); [done|].
  rewrite bool_decide_eq_false_2; [done|apply numbered_key_own].
Qed.

(** [createMsgIdAndPrevRef] in closed form: it never throws. *)
Lemma createMsgIdAndPrevRef_spec (s : string) (p ts : Z) (pid : string)
    (ps : gmap string PublishedStream) :
  let key := s +:+ pretty p in
  let st := default (mkPublishedStream None 0) (ps !! key) in
  let n := if bool_decide (prevTimestamp st = Some ts) then prevSequenceNumber st + 1
           else 0 in
  createMsgIdAndPrevRef msgChainId s p ts pid ps
  = (Ok (mkMessageID s p ts n pid msgChainId, last_link key ps),
     <[key := mkPublishedStream (Some ts) n]> ps).
Proof.
  intros key st n. subst st n key. unfold createMsgIdAndPrevRef, last_link.
  unfold getNextSequenceNumber, getPrevMsgRef, set_prev.
  rewrite !published_numbered.
  destruct (ps !! (s +:+ pretty p)) as [[pt pn]|] eqn:Hps; simpl.
  - rewrite ?published_numbered. rewrite ?Hps. simpl.
    destruct pt as [t|]; [|done].
    destruct (decide (t = ts)) as [->|Hne].
    + rewrite bool_decide_eq_false_2 by (by intros H; apply H).
      rewrite bool_decide_eq_true_2 by done.
      by destruct (ts =? 0).
    + rewrite bool_decide_eq_true_2 by congruence.
      rewrite bool_decide_eq_false_2 by congruence.
      by destruct (t =? 0).
  - rewrite ?published_numbered.
    rewrite !lookup_insert_eq. simpl.
    by rewrite insert_insert_eq.
Qed.

Lemma createAll_cons (s : string) (p ts : Z) (calls : list (string * Z * Z))
    (pid : string) (ps : gmap string PublishedStream) :
  createAll msgChainId ((s, p, ts) :: calls) pid ps
  = ((createMsgIdAndPrevRef msgChainId s p ts pid ps).1
       :: (createAll msgChainId calls pid
             (createMsgIdAndPrevRef msgChainId s p ts pid ps).2).1,
     (createAll msgChainId calls pid
        (createMsgIdAndPrevRef msgChainId s p ts pid ps).2).2).
Proof.
  cbn [createAll].
  destruct (createMsgIdAndPrevRef msgChainId s p ts pid ps) as [r ps1].
  cbn [fst snd]. by destruct (createAll msgChainId calls pid ps1).
Qed.

Lemma last_link_insert (key : string) (i : MessageID)
    (ps : gmap string PublishedStream) :
  last_link key
    (<[key := mkPublishedStream (Some (id_timestamp i)) (id_sequenceNumber i)]> ps)
  = link_of i.
Proof. unfold last_link, link_of. rewrite lookup_insert_eq. reflexivity. Qed.

Lemma last_link_insert_ne (key key' : string) (st : PublishedStream)
    (ps : gmap string PublishedStream) :
  key' ≠ key -> last_link key (<[key' := st]> ps) = last_link key ps.
Proof. intros Hne. unfold last_link. by rewrite lookup_insert_ne. Qed.

(** X3: every call of [createMsgIdAndPrevRef] succeeds and returns an
    id with the stream id, partition and timestamp it was given; and
    however calls for different keys interleave, the messages of one
    key form a chain: each names as its previous reference the message
    created before it under that key (or what the state held before the
    run), where a message with timestamp 0 is named by no reference. *)
Theorem chain_links_per_key (calls : list (string * Z * Z)) (pid : string)
    (ps : gmap string PublishedStream) (key : string) :
  exists ms,
    (createAll msgChainId calls pid ps).1 = Ok <$> ms
    /\ (fun m => (id_streamId m.1, id_streamPartition m.1, id_timestamp m.1)) <$> ms
       = calls
    /\ chained (last_link key ps) (filter (fun m => chain_key m.1 = key) ms).
Proof.
  revert ps. induction calls as [|[[s p] ts] calls IH]; intros ps.
  - by exists [].
  - rewrite createAll_cons. rewrite createMsgIdAndPrevRef_spec. cbv zeta.
    cbn [fst snd].
    set (n := if bool_decide _ then _ else _).
    destruct (IH (<[s +:+ pretty p := mkPublishedStream (Some ts) n]> ps))
      as (ms & Hms & Hcalls & Hch).
    exists ((mkMessageID s p ts n pid msgChainId, last_link (s +:+ pretty p) ps) :: ms).
    split; [by rewrite Hms|]. split; [by rewrite fmap_cons, Hcalls|].
    destruct (decide (s +:+ pretty p = key)) as [Hk|Hk].
    + rewrite filter_cons_True by done. subst key. split; [done|].
      pose proof (last_link_insert (s +:+ pretty p)
                    (mkMessageID s p ts n pid msgChainId) ps) as Hl.
      simpl in Hl. by rewrite Hl in Hch.
    + rewrite filter_cons_False by done.
      by rewrite last_link_insert_ne in Hch.
Qed.

Lemma ref_lt_trans (a b c : MessageRef) : ref_lt a b -> ref_lt b c -> ref_lt a c.
Proof. unfold ref_lt. lia. Qed.

Lemma createAll_increasing_from (calls : list (string * Z * Z)) (pid : string)
    (key : string) :
  forall (ps : gmap string PublishedStream) (ms : list (MessageID * option MessageRef))
         (t0 n0 : Z),
    ps !! key = Some (mkPublishedStream (Some t0) n0) ->
    (createAll msgChainId calls pid ps).1 = Ok <$> ms ->
    StronglySorted Z.le
      (t0 :: ((fun m => id_timestamp m.1) <$> filter (fun m => chain_key m.1 = key) ms)) ->
    StronglySorted ref_lt
      (mkRef t0 n0 :: ((fun m => id_ref m.1) <$> filter (fun m => chain_key m.1 = key) ms)).
Proof.
  induction calls as [|[[s p] ts] calls IH]; intros ps ms t0 n0 Hps Hrun Hsorted.
  - destruct ms; [|done]. repeat constructor.
  - rewrite createAll_cons, createMsgIdAndPrevRef_spec in Hrun. cbv zeta in Hrun.
    cbn [fst snd] in Hrun.
    destruct ms as [|m ms]; [done|]. rewrite fmap_cons in Hrun.
    injection Hrun as Hm Hrun. subst m.
    destruct (decide (s +:+ pretty p = key)) as [Hk|Hk].
    + subst key. rewrite Hps in *. cbn [from_option id prevTimestamp prevSequenceNumber id_timestamp id_sequenceNumber id_ref] in *.
      rewrite filter_cons_True in * by done. rewrite !fmap_cons in *. cbn [fst] in *.
      apply StronglySorted_inv in Hsorted as [Hrest Hle].
      set (n := if bool_decide (Some t0 = Some ts) then n0 + 1 else 0) in *.
      specialize (IH _ ms ts n (lookup_insert_eq _ _ _) Hrun Hrest).
      assert (ref_lt (mkRef t0 n0) (mkRef ts n)) as Hlt.
      { apply Forall_cons in Hle as [Hle _]. cbn [id_timestamp] in Hle.
        unfold ref_lt. simpl. subst n. case_bool_decide as Heq; [injection Heq as ->; lia|]. assert (t0 ≠ ts) by congruence. lia. }
      constructor; [exact IH|].
      apply StronglySorted_inv in IH as [_ Hall].
      constructor; [exact Hlt|].
      eapply Forall_impl; [exact Hall|]. intros r Hr. by eapply ref_lt_trans.
    + rewrite filter_cons_False in * by done.
      eapply IH; [|exact Hrun|exact Hsorted].
      by rewrite lookup_insert_ne.
Qed.

Lemma createAll_increasing_fresh (calls : list (string * Z * Z)) (pid : string)
    (key : string) :
  forall (ps : gmap string PublishedStream) (ms : list (MessageID * option MessageRef)),
    ps !! key = None ->
    (createAll msgChainId calls pid ps).1 = Ok <$> ms ->
    StronglySorted Z.le
      ((fun m => id_timestamp m.1) <$> filter (fun m => chain_key m.1 = key) ms) ->
    StronglySorted ref_lt
      ((fun m => id_ref m.1) <$> filter (fun m => chain_key m.1 = key) ms).
Proof.
  induction calls as [|[[s p] ts] calls IH]; intros ps ms Hps Hrun Hsorted.
  - destruct ms; [|done]. constructor.
  - rewrite createAll_cons, createMsgIdAndPrevRef_spec in Hrun. cbv zeta in Hrun.
    cbn [fst snd] in Hrun.
    destruct ms as [|m ms]; [done|]. rewrite fmap_cons in Hrun.
    injection Hrun as Hm Hrun. subst m.
    destruct (decide (s +:+ pretty p = key)) as [Hk|Hk].
    + subst key. rewrite Hps in *.
      cbn [from_option id prevTimestamp prevSequenceNumber] in *.
      rewrite filter_cons_True in * by done. rewrite !fmap_cons in *. cbn [fst] in *.
      rewrite bool_decide_eq_false_2 in * by done.
      eapply (createAll_increasing_from calls pid _ _ ms ts 0);
        [apply lookup_insert_eq|exact Hrun|exact Hsorted].
    + rewrite filter_cons_False in * by done.
      eapply IH; [|exact Hrun|exact Hsorted].
      by rewrite lookup_insert_ne.
Qed.

(** X4: on a key that is new to [publishedStreams], as long as the
    timestamps given for the key never decrease, the references
    (timestamp, sequence number) of the key's messages strictly
    increase, whatever is created for other keys in between: equal
    timestamps get consecutive sequence numbers, and no two messages of
    the chain share a reference. *)
Theorem chain_refs_increase (calls : list (string * Z * Z)) (pid key : string)
    (ps : gmap string PublishedStream) (ms : list (MessageID * option MessageRef)) :
  ps !! key = None ->
  (createAll msgChainId calls pid ps).1 = Ok <$> ms ->
  StronglySorted Z.le
    ((fun m => id_timestamp m.1) <$> filter (fun m => chain_key m.1 = key) ms) ->
  StronglySorted ref_lt
    ((fun m => id_ref m.1) <$> filter (fun m => chain_key m.1 = key) ms).
Proof. apply createAll_increasing_fresh. Qed.

(** X5: the chain state is keyed by the concatenation of stream id and
    partition. Two stream partitions whose concatenations coincide
    share one chain: a message created for the second at the timestamp
    of the first gets the next sequence number and names the first
    one's message as its previous reference. *)
Theorem chain_key_collision (s1 s2 : string) (p1 p2 ts : Z) (pid : string)
    (ps : gmap string PublishedStream) :
  s1 +:+ pretty p1 = s2 +:+ pretty p2 ->
  let r1 := createMsgIdAndPrevRef msgChainId s1 p1 ts pid ps in
  let r2 := createMsgIdAndPrevRef msgChainId s2 p2 ts pid r1.2 in
  exists i1 prev1 i2,
    r1.1 = Ok (i1, prev1)
    /\ r2.1 = Ok (i2, link_of i1)
    /\ id_streamId i2 = s2 /\ id_streamPartition i2 = p2
    /\ id_sequenceNumber i2 = id_sequenceNumber i1 + 1.
Proof.
  intros Hkey r1 r2. subst r1 r2. rewrite !createMsgIdAndPrevRef_spec. cbv zeta.
  cbn [fst snd]. rewrite <- Hkey. rewrite !lookup_insert_eq.
  cbn [from_option id prevTimestamp prevSequenceNumber].
  rewrite (bool_decide_eq_true_2 (Some ts = Some ts)) by done.
  set (n1 := if bool_decide _ then _ else _).
  pose proof (last_link_insert (s1 +:+ pretty p1)
                (mkMessageID s1 p1 ts n1 pid msgChainId) ps) as Hl.
  cbn [id_timestamp id_sequenceNumber] in Hl. rewrite Hl.
  by eexists _, _, _.
Qed.
End ChainLemmas.

Lemma chain_refs_increase_witness :
  StronglySorted ref_lt [mkRef 5 0; mkRef 5 1; mkRef 9 0].
Proof.
  apply (chain_refs_increase "chain"
           [("s1", 0, 5); ("s2", 0, 7); ("s1", 0, 5); ("s1", 0, 9)] "publisher" "s10" ∅
           [(mkMessageID "s1" 0 5 0 "publisher" "chain", None);
            (mkMessageID "s2" 0 7 0 "publisher" "chain", None);
            (mkMessageID "s1" 0 5 1 "publisher" "chain", Some (mkRef 5 0));
            (mkMessageID "s1" 0 9 0 "publisher" "chain", Some (mkRef 5 1))]).
  - reflexivity.
  - vm_compute. reflexivity.
  - change (StronglySorted Z.le [5; 5; 9]). repeat constructor; lia.
Defined.

Lemma chain_key_collision_witness :
  let r1 := createMsgIdAndPrevRef "chain" "s1" 12 1529549961116 "publisher" ∅ in
  let r2 := createMsgIdAndPrevRef "chain" "s11" 2 1529549961116 "publisher" r1.2 in
  exists i1 prev1 i2,
    r1.1 = Ok (i1, prev1)
    /\ r2.1 = Ok (i2, link_of i1)
    /\ id_streamId i2 = "s11" /\ id_streamPartition i2 = 2
    /\ id_sequenceNumber i2 = id_sequenceNumber i1 + 1.
Proof.
  apply (chain_key_collision "chain" "s1" "s11" 12 2). reflexivity.
Defined.

(** ** The hash cache and the partition of a key *)

Lemma get_property_insert (cache : gmap string (list Z)) (s : string) (d : list Z) :
  get_property (<[s := d]> cache) s = Some (Digest d).
Proof. unfold get_property. by rewrite lookup_insert_eq. Qed.

(** X6: [hash] memoizes: a second call with the same string returns
    what the first call returned and leaves [cachedHashes] as the first
    call left it. *)
Theorem hash_cached (md5 : string -> list Z) (s : string) (cache : gmap string (list Z)) :
  hash md5 s (hash md5 s cache).2 = ((hash md5 s cache).1, (hash md5 s cache).2).
Proof.
  unfold hash. destruct (get_property cache s) as [v|] eqn:Hv; simpl.
  - by rewrite Hv.
  - by rewrite get_property_insert.
Qed.

(** X7: with a non-empty partition key outside [Object.prototype], the
    outcome of [computeStreamPartition] depends on the partition count
    and the key only: not on the random draw and not on what the cache
    holds, as long as the cache holds digests of its keys, which the
    call preserves. *)
Theorem computeStreamPartition_stable (md5 : string -> list Z) (n : Z) (k : string)
    (rnd1 rnd2 : Z) (cache1 cache2 : gmap string (list Z)) :
  cache_ok md5 cache1 -> cache_ok md5 cache2 ->
  k ≠ "" -> k ∉ objectPrototype ->
  (computeStreamPartition md5 (Some n) (Some k) rnd1 cache1).1
  = (computeStreamPartition md5 (Some n) (Some k) rnd2 cache2).1
  /\ cache_ok md5 (computeStreamPartition md5 (Some n) (Some k) rnd1 cache1).2.
Proof.
  intros Hok1 Hok2 Hk Hproto.
  pose proof (hash_plain_key md5 k cache1 Hok1 Hproto) as H1.
  pose proof (hash_plain_key md5 k cache2 Hok2 Hproto) as H2.
  pose proof (hash_keeps_cache_ok md5 k cache1 Hok1) as H3.
  unfold computeStreamPartition.
  assert (truthy_string (Some k) = true) as ->.
  { simpl. destruct k; [done|reflexivity]. }
  simpl default.
  destruct (hash md5 k cache1) as [b1 c1], (hash md5 k cache2) as [b2 c2].
  simpl in H1, H2, H3. subst b1 b2.
  destruct n as [|n|n]; [done| |].
  - destruct (Z.pos n =? 1); [done|]. by destruct (readInt32LE (md5 k)).
  - simpl. by destruct (readInt32LE (md5 k)).
Qed.

Lemma computeStreamPartition_stable_witness :
  let md5 := fun _ : string => [1; 2; 3; 4; 5; 6; 7; 8; 9; 10; 11; 12; 13; 14; 15; 16] in
  (computeStreamPartition md5 (Some 5) (Some "device-7") 0 ∅).1
  = (computeStreamPartition md5 (Some 5) (Some "device-7") 4503599627370496
       (<["device-7" := md5 "device-7"]> ∅)).1
  /\ cache_ok md5 (computeStreamPartition md5 (Some 5) (Some "device-7") 0 ∅).2.
Proof.
  intros md5. apply computeStreamPartition_stable.
  - intros k d Hk. by rewrite lookup_empty in Hk.
  - intros k d Hk. apply lookup_insert_Some in Hk as [[_ <-]|[_ Hk]]; [done|].
    by rewrite lookup_empty in Hk.
  - discriminate.
  - apply (bool_decide_unpack _). by vm_compute.
Defined.

Lemma computeStreamPartition_in_range_witness :
  let md5 := fun _ : string => [255; 255; 255; 255; 5; 6; 7; 8; 9; 10; 11; 12; 13; 14; 15; 16] in
  exists p,
    (computeStreamPartition md5 (Some 3) (Some "device-7") 0 ∅).1 = Ok p
    /\ 0 <= p < 3.
Proof.
  intros md5. apply (computeStreamPartition_in_range md5).
  - reflexivity.
  - intros k d Hk. by rewrite lookup_empty in Hk.
  - lia.
  - lia.
  - intros k [= <-]. apply (bool_decide_unpack _). by vm_compute.
Defined.

(** ** The signer *)

Section SignerLemmas.
Variable computeAddress : Signer.PrivateKey -> result string.
Variable SigningUtil_sign : string -> Signer.PrivateKey -> string.
Variable SigningUtil_verify : string -> string -> option string -> result bool.

Lemma Signer_new_ok (options : Signer.SignerOptions) (signer : Signer) :
  Signer.new computeAddress SigningUtil_sign options = Ok signer ->
  is_Some (Signer.given_key (Signer.privateKey options))
  \/ is_Some (Signer.provider options).
Proof.
  unfold Signer.new.
  destruct (Signer.given_key (Signer.privateKey options)); [eauto|].
  destruct (Signer.provider options); [eauto|done].
Qed.

(** X9: [createSigner] returns a signer exactly when
    [publishWithSignature] is ['auto'] or ['always'] and the constructor
    accepts the options; it returns [undefined] exactly for ['never']
    and for ['auto'] without a private key and without a provider. In
    every other case it throws. *)
Theorem createSigner_outcomes (options : Signer.SignerOptions) (mode : string) :
  (forall signer,
     Signer.createSigner computeAddress SigningUtil_sign options mode = Ok (Some signer)
     <-> (mode = "auto" \/ mode = "always")
         /\ Signer.new computeAddress SigningUtil_sign options = Ok signer)
  /\ (Signer.createSigner computeAddress SigningUtil_sign options mode = Ok None
      <-> mode = "never"
          \/ (mode = "auto"
              /\ Signer.given_key (Signer.privateKey options) = None
              /\ Signer.provider options = None)).
Proof.
  unfold Signer.createSigner.
  destruct (String.eqb_spec mode "never") as [->|Hnever].
  { split; [|by split; auto]. intros signer. split; [done|].
    by intros [[?|?] _]. }
  destruct (String.eqb_spec mode "auto") as [->|Hauto].
  - simpl. split.
    + intros signer. split.
      * repeat case_bool_decide; simpl; try done;
          destruct (Signer.new _ _ _) eqn:Hn; simpl; intros [= <-]; auto.
      * intros [_ Hn]. destruct (Signer_new_ok _ _ Hn) as [Hk|Hp].
        -- rewrite (bool_decide_eq_true_2 _ Hk). simpl. by rewrite Hn.
        -- rewrite (bool_decide_eq_true_2 _ Hp). rewrite andb_false_r. by rewrite Hn.
    + split.
      * intros Hnone. right. split; [done|].
        repeat case_bool_decide; simpl in *;
          try (destruct (Signer.new _ _ _); simpl in *; discriminate).
        split; by apply eq_None_not_Some.
      * intros [?|(_ & Hk & Hp)]; [done|]. rewrite Hk, Hp.
        by rewrite !bool_decide_eq_false_2 by (by intros [? ?]).
  - rewrite andb_false_l, orb_false_l.
    destruct (String.eqb_spec mode "always") as [->|Halways].
    + split.
      * intros signer. split.
        -- destruct (Signer.new _ _ _) eqn:Hn; simpl; intros [= <-]; auto.
        -- intros [_ ->]. done.
      * split; [by destruct (Signer.new _ _ _)|]. by intros [?|[? _]].
    + split.
      * intros signer. split; [done|]. by intros [[?|?] _].
      * split; [done|]. by intros [?|[? _]].
Qed.

Lemma getPayloadToSign_set_signature (s : option string) (m : StreamMessage) :
  getPayloadToSign (Signer.set_signature s m) = getPayloadToSign m.
Proof. reflexivity. Qed.

(** X10: a message signed by [signStreamMessage] passes
    [verifyStreamMessage], provided [SigningUtil.verify] accepts what
    the signer's [sign] produces for the signer's address: the payload
    that is verified is the payload that was signed. *)
Theorem sign_then_verify (signer : Signer) (m m' : StreamMessage) (t : Z) :
  (forall d, SigningUtil_verify (address signer) d (Some (sign signer d)) = Ok true) ->
  Signer.signStreamMessage signer m t = (Ok (), m') ->
  Signer.verifyStreamMessage SigningUtil_verify m' = Ok true.
Proof.
  intros Hsound. unfold Signer.signStreamMessage, Signer.signData.
  destruct (id_timestamp (messageId m) =? 0); [done|].
  destruct ((t =? SIGNATURE_ETH_LEGACY) || (t =? SIGNATURE_ETH)); [|done].
  intros [= <-]. unfold Signer.verifyStreamMessage.
  rewrite getPayloadToSign_set_signature. apply Hsound.
Qed.
End SignerLemmas.

Lemma sign_then_verify_witness :
  let signer := mkSigner "0xAbC" (fun d => "signed:" +:+ d) in
  let verify := fun (a d : string) (s : option string) =>
                  Ok (bool_decide (a = "0xAbC" /\ s = Some ("signed:" +:+ d))) in
  let m := mkStreamMessage (mkMessageID "streamId" 0 1529549961116 0 "0xabc" "chain-id")
                           None "{}" 27 0 SIGNATURE_NONE None in
  Signer.verifyStreamMessage verify (Signer.signStreamMessage signer m SIGNATURE_ETH).2
  = Ok true.
Proof.
  intros signer verify m.
  apply (sign_then_verify verify signer m _ SIGNATURE_ETH).
  - intros d. unfold verify. by rewrite bool_decide_eq_true_2.
  - reflexivity.
Defined.

(** ** Aggregated errors *)

Lemma set_of_fold (array acc : list nat) :
  NoDup acc ->
  let r := foldl (fun acc x => if bool_decide (x ∈ acc) then acc else acc ++ [x])
                 acc array in
  NoDup r /\ forall x, x ∈ r <-> x ∈ acc \/ x ∈ array.
Proof.
  revert acc. induction array as [|a array IH]; intros acc Hacc; simpl.
  - split; [done|]. intros x. rewrite elem_of_nil. tauto.
  - case_bool_decide as Ha.
    + destruct (IH acc Hacc) as [Hnd Hel]. split; [done|].
      intros x. rewrite Hel, elem_of_cons. split; [tauto|].
      intros [?|[->|?]]; auto.
    + destruct (IH (acc ++ [a])) as [Hnd Hel].
      { apply NoDup_app. split; [done|]. split; [|apply NoDup_singleton].
        intros x Hx ->%list_elem_of_singleton. done. }
      split; [done|]. intros x.
      rewrite Hel, elem_of_app, list_elem_of_singleton, elem_of_cons. tauto.
Qed.

Lemma set_of_spec (array : list nat) :
  NoDup (AggregatedError.set_of array)
  /\ forall x, x ∈ AggregatedError.set_of array <-> x ∈ array.
Proof.
  destruct (set_of_fold array [] (NoDup_nil_2)) as [Hnd Hel]. split; [done|].
  intros x. unfold AggregatedError.set_of. rewrite Hel, elem_of_nil. tauto.
Qed.

Lemma errors_of_new (heap : list AggregatedError.ErrorObject) (msg : string)
    (es : list nat) :
  AggregatedError.errors_of (length heap)
    (heap ++ [AggregatedError.mkErrorObject msg (Some es)]) = Some es.
Proof.
  unfold AggregatedError.errors_of. by rewrite list_lookup_middle.
Qed.

(** X11: [extend] adds an error once: extending the result of
    [extend] with the same error again returns that result itself and
    allocates nothing, whatever the messages are. *)
Theorem extend_twice (this err : nat) (message message' : string)
    (heap : list AggregatedError.ErrorObject) :
  let r := AggregatedError.extend this err message heap in
  AggregatedError.extend r.1 err message' r.2 = r.
Proof.
  unfold AggregatedError.extend.
  destruct (bool_decide (err = this)
            || bool_decide (err ∈ default [] (AggregatedError.errors_of this heap)))
    eqn:Hin; simpl.
  - by rewrite Hin.
  - unfold AggregatedError.constructor. simpl. rewrite errors_of_new. simpl.
    rewrite (bool_decide_eq_true_2 (err ∈ _)); [by rewrite orb_true_r|].
    apply set_of_spec. by left.
Qed.

Lemma from_all_aggregated (heap0 : list AggregatedError.ErrorObject) (rest : list nat) :
  Forall (fun e => (e < length heap0)%nat) rest ->
  forall (heap : list AggregatedError.ErrorObject) (r : nat) (es : list nat),
    (length heap0 <= r)%nat ->
    AggregatedError.errors_of r heap = Some es ->
    NoDup es ->
    heap0 `prefix_of` heap ->
    exists r' es',
      (AggregatedError.from_all (Some r) rest heap).1 = Some r'
      /\ AggregatedError.errors_of r' (AggregatedError.from_all (Some r) rest heap).2
         = Some es'
      /\ NoDup es'
      /\ (forall x, x ∈ es' <-> x ∈ es \/ x ∈ rest)
      /\ heap0 `prefix_of` (AggregatedError.from_all (Some r) rest heap).2
      /\ (length heap0 <= r')%nat.
Proof.
  induction 1 as [|e rest He _ IH]; intros heap r es Hr Hes Hnd Hpre.
  - exists r, es. simpl. repeat split; auto.
    + by intros [?|?%elem_of_nil].
  - cbn [AggregatedError.from_all AggregatedError.from]. rewrite Hes. simpl.
    unfold AggregatedError.extend. rewrite Hes. simpl.
    rewrite (bool_decide_eq_false_2 (e = r)) by lia. simpl.
    case_bool_decide as Hin.
    + destruct (IH heap r es Hr Hes Hnd Hpre) as (r' & es' & H1 & H2 & H3 & H4 & H5 & H6).
      exists r', es'. repeat split; try done.
      * intros Hx. apply H4 in Hx as [?|?]; [by left|]. right. by right.
      * intros [?|[->|?]%elem_of_cons]; apply H4; auto.
    + unfold AggregatedError.constructor.
      set (msg := _ +:+ _).
      destruct (set_of_spec (e :: es)) as [Hnd' Hel'].
      destruct (IH (heap ++ [AggregatedError.mkErrorObject msg
                               (Some (AggregatedError.set_of (e :: es)))])
                  (length heap) (AggregatedError.set_of (e :: es)))
        as (r' & es' & H1 & H2 & H3 & H4 & H5 & H6).
      * apply prefix_length in Hpre. lia.
      * apply errors_of_new.
      * done.
      * by apply prefix_app_r.
      * exists r', es'. repeat split; try done.
        -- intros Hx. apply H4 in Hx as [Hx|?]; [|right; by right].
           apply Hel' in Hx. apply elem_of_cons in Hx as [->|?]; [|by left].
           right. by left.
        -- intros [?|[->|?]%elem_of_cons]; apply H4; rewrite Hel'; auto.
           ++ left. by right.
           ++ left. by left.
Qed.

(** X12: errors collected one after the other with
    [AggregatedError.from], starting from none, end in one new
    [AggregatedError] whose [errors] set holds exactly the collected
    errors, each once, when the first error is no [AggregatedError]
    itself and there are at least two. The error objects that existed
    before are left as they were. *)
Theorem from_all_collects (heap : list AggregatedError.ErrorObject)
    (e1 e2 : nat) (rest : list nat) :
  AggregatedError.errors_of e1 heap = None ->
  Forall (fun e => (e < length heap)%nat) (e2 :: rest) ->
  let run := AggregatedError.from_all None (e1 :: e2 :: rest) heap in
  exists r es,
    run.1 = Some r
    /\ (length heap <= r)%nat
    /\ AggregatedError.errors_of r run.2 = Some es
    /\ NoDup es
    /\ (forall x, x ∈ es <-> x ∈ e1 :: e2 :: rest)
    /\ heap `prefix_of` run.2.
Proof.
  intros Hplain Hall run. subst run.
  cbn [AggregatedError.from_all AggregatedError.from truthy_string].
  rewrite Hplain. unfold AggregatedError.constructor.
  set (msg := AggregatedError.message_of e2 heap).
  destruct (set_of_spec [e1; e2]) as [Hnd Hel].
  apply Forall_cons in Hall as [_ Hall].
  destruct (from_all_aggregated heap rest Hall
              (heap ++ [AggregatedError.mkErrorObject msg
                          (Some (AggregatedError.set_of [e1; e2]))])
              (length heap) (AggregatedError.set_of [e1; e2]))
    as (r & es & H1 & H2 & H3 & H4 & H5 & H6).
  - done.
  - apply errors_of_new.
  - done.
  - by apply prefix_app_r.
  - exists r, es. repeat split; try done.
    + intros Hx. apply H4 in Hx as [Hx|Hx].
      * apply Hel in Hx. apply elem_of_cons in Hx as [->|Hx]; [by left|].
        apply list_elem_of_singleton in Hx as ->. right. by left.
      * by do 2 right.
    + intros Hx. apply H4. rewrite Hel.
      apply elem_of_cons in Hx as [->|Hx]; [left; by left|].
      apply elem_of_cons in Hx as [->|Hx]; [left; right; by left|by right].
Qed.

Lemma from_all_collects_witness :
  let heap := [AggregatedError.mkErrorObject "first" None;
               AggregatedError.mkErrorObject "second" None;
               AggregatedError.mkErrorObject "third" None] in
  let run := AggregatedError.from_all None [0; 1; 2; 1]%nat heap in
  exists r es,
    run.1 = Some r
    /\ (length heap <= r)%nat
    /\ AggregatedError.errors_of r run.2 = Some es
    /\ NoDup es
    /\ (forall x, x ∈ es <-> x ∈ [0; 1; 2; 1]%nat)
    /\ heap `prefix_of` run.2.
Proof.
  intros heap run. apply (from_all_collects heap 0 1 [2; 1]%nat).
  - reflexivity.
  - repeat constructor.
Defined.


(** ** Subscribing again, refusals and silence *)

Section SubscriptionRuns.
Variable broker : Request -> list Response.

(** X13: subscribe, unsubscribe, subscribe again on one stream
    partition, with a broker that acknowledges: each step makes its own
    round trip, so the wire carries a [SubscribeRequest], an
    [UnsubscribeRequest] and a second [SubscribeRequest] for the key,
    and the number of open iterators goes 1, 0, 1. Unsubscribing clears
    the cached subscribe response. *)
Theorem resubscribe_round_trip (arg : OptionsArg) (o : Options) (key : string)
    (cl : Client) :
  acknowledges broker SubscribeRequest ->
  acknowledges broker UnsubscribeRequest ->
  wf_conn (connection cl) = true ->
  Subscriptions.key_of arg = Ok (o, key) ->
  subscriptions cl !! key = None ->
  let r1 := Subscriptions.subscribe broker arg cl in
  let r2 := Subscriptions.unsubscribe broker arg r1.2 in
  let r3 := Subscriptions.subscribe broker arg r2.2 in
  let n := uuid_counter cl in
  r1.1 = Fulfilled (iterator_counter cl)
  /\ r2.1 = Fulfilled ()
  /\ r3.1 = Fulfilled (S (iterator_counter cl))
  /\ sent (connection r3.2)
     = sent (connection cl)
       ++ [subscribeRequest o (uuid "sub" n) (sessionToken cl);
           unsubscribeRequest o (uuid "unsub" (S n)) (sessionToken cl);
           subscribeRequest o (uuid "sub" (S (S n))) (sessionToken cl)]
  /\ Subscriptions.count arg r1.2 = Ok 1%nat
  /\ Subscriptions.count arg r2.2 = Ok 0%nat
  /\ Subscriptions.count arg r3.2 = Ok 1%nat
  /\ subscribed_at key r3.2.
Proof.
  intros Hsub Hunsub Hwf Hkey Hnone r1 r2 r3 n. subst r1 r2 r3 n.
  destruct (Subscriptions_subscribe_fresh broker arg o key cl Hsub Hwf Hkey Hnone)
    as (m1 & c1 & -> & Hsent1 & Hwf1). cbn [fst snd].
  set (sub1 := mkSubscription o (Some m1) None [iterator_counter cl] false false
                              [EvSubscribed]).
  set (cl1 := mkClient c1 _ _ _ _).
  destruct (Subscriptions_unsubscribe_first broker arg o key cl1 sub1 Hunsub Hwf1 Hkey)
    as (m2 & c2 & -> & Hsent2 & Hwf2); try done.
  { apply lookup_insert_eq. }
  cbn [fst snd sub_options sub1 aborted emitted cl1 sessionToken uuid_counter
       iterator_counter subscriptions connection].
  set (sub2 := mkSubscription o None (Some m2) [] false false _).
  set (cl2 := mkClient c2 _ _ _ _).
  destruct (Subscriptions_subscribe_known broker arg o key cl2 sub2 Hsub Hwf2 Hkey)
    as (m3 & c3 & -> & Hsent3 & Hwf3); try done.
  { apply lookup_insert_eq. }
  cbn [fst snd sub_options sub2 streams emitted cl2 sessionToken uuid_counter
       iterator_counter subscriptions connection].
  split; [done|]. split; [done|]. split; [done|]. split.
  { rewrite Hsent3. cbn [cl2 connection sessionToken uuid_counter sub_options sub2].
    rewrite Hsent2. cbn [cl1 connection sessionToken uuid_counter sub_options sub1].
    rewrite Hsent1. by rewrite <- !app_assoc. }
  unfold Subscriptions.count, Subscriptions.get. rewrite Hkey. cbn [mbind result_bind snd].
  cbn [subscriptions cl1 cl2]. rewrite !lookup_insert_eq.
  split; [done|]. split; [done|]. split; [done|].
  eexists _, m3. cbn [subscriptions]. rewrite lookup_insert_eq. by repeat split.
Qed.

Lemma reply_of_refused (t : MsgType) (request : Request) :
  refuses broker t -> req_type request = t ->
  exists types m,
    PAIRS t = Some types
    /\ first_relevant types (req_requestId request) (broker request) = Some m
    /\ reply_of types (req_requestId request) (broker request)
       = Failed (mkError (res_errorMessage m) (Some (res_errorCode m))).
Proof.
  intros Href Hty. destruct (Href request Hty) as (types & m & Hp & Hf & Herr).
  exists types, m. repeat split; try done.
  unfold reply_of. rewrite Hf. rewrite bool_decide_eq_false_2; [done|].
  rewrite Herr. by eapply PAIRS_no_error.
Qed.

(** A subscribe that the broker refuses fails with the broker's error
    and changes nothing in the subscription but the cleared cache of
    [sendUnsubscribe]. *)
Lemma Subscription_subscribe_refused (s : Subscription) (cl : Client) :
  refuses broker SubscribeRequest ->
  wf_conn (connection cl) = true ->
  sendSubscribe_cache s = None -> stalled s = false ->
  let request := subscribeRequest (sub_options s) (uuid "sub" (uuid_counter cl))
                                  (sessionToken cl) in
  exists m c3,
    first_relevant [SubscribeResponse] (req_requestId request) (broker request) = Some m
    /\ Subscription.subscribe broker s cl
       = (Failed (mkError (res_errorMessage m) (Some (res_errorCode m))),
          mkSubscription (sub_options s) None None (streams s) (aborted s) false
                         (emitted s),
          mkClient c3 (sessionToken cl) (S (uuid_counter cl)) (iterator_counter cl)
                   (subscriptions cl))
    /\ sent c3 = sent (connection cl) ++ [request]
    /\ wf_conn c3 = true.
Proof.
  intros Href Hwf Hc Hst request.
  destruct (subscribe_spec broker (sub_options s) cl Hwf) as (c3 & Heq & Hsent & Hwf3).
  destruct (reply_of_refused SubscribeRequest request Href eq_refl)
    as (types & m & [= <-] & Hf & Hr).
  fold request in Heq. rewrite Hr in Heq. exists m, c3. split; [done|].
  split; [|done].
  destruct s as [opts sc uc strs ab st em]. simpl in *. subst.
  unfold Subscription.subscribe, Subscription.subscribe_task, Subscription.sendSubscribe.
  cbn -[subscribe]. rewrite Heq. reflexivity.
Qed.

Lemma Subscriptions_subscribe_refused (arg : OptionsArg) (o : Options) (key : string)
    (cl : Client) :
  refuses broker SubscribeRequest ->
  wf_conn (connection cl) = true ->
  Subscriptions.key_of arg = Ok (o, key) ->
  let sub := default (Subscription.new o) (subscriptions cl !! key) in
  sendSubscribe_cache sub = None -> stalled sub = false ->
  let request := subscribeRequest (sub_options sub) (uuid "sub" (uuid_counter cl))
                                  (sessionToken cl) in
  exists m c3,
    first_relevant [SubscribeResponse] (req_requestId request) (broker request) = Some m
    /\ Subscriptions.subscribe broker arg cl
       = (Failed (mkError (res_errorMessage m) (Some (res_errorCode m))),
          mkClient c3 (sessionToken cl) (S (uuid_counter cl)) (iterator_counter cl)
            (<[key := mkSubscription (sub_options sub) None None (streams sub)
                        (aborted sub) false (emitted sub)]> (subscriptions cl)))
    /\ sent c3 = sent (connection cl) ++ [request]
    /\ wf_conn c3 = true.
Proof.
  intros Href Hwf Hkey sub Hc Hst request.
  unfold Subscriptions.subscribe, Subscriptions.lookup_or_create. rewrite Hkey.
  unfold Subscriptions.run_subscribe.
  destruct (subscriptions cl !! key) as [s|] eqn:Hs.
  - rewrite Hs. subst sub. cbn [default from_option id] in *.
    destruct (Subscription_subscribe_refused s cl Href Hwf Hc Hst)
      as (m & c3 & Hf & -> & Hsent & Hwf3).
    exists m, c3. by repeat split.
  - cbn [subscriptions set_subscription]. rewrite lookup_insert_eq.
    subst sub. cbn [default from_option id] in *.
    destruct (Subscription_subscribe_refused (Subscription.new o)
                (set_subscription key (Subscription.new o) cl) Href Hwf Hc Hst)
      as (m & c3 & Hf & -> & Hsent & Hwf3).
    exists m, c3. split; [done|]. split; [|done].
    cbn. unfold set_subscription. cbn. by rewrite insert_insert_eq.
Qed.

(** X14: a subscribe that the broker answers with an [ErrorResponse]
    rejects with the broker's error message and code, opens no
    iterator, and is not cached: the next subscribe for the key sends a
    new [SubscribeRequest]. *)
Theorem refused_subscribe_not_cached (arg : OptionsArg) (o : Options) (key : string)
    (cl : Client) :
  refuses broker SubscribeRequest ->
  wf_conn (connection cl) = true ->
  Subscriptions.key_of arg = Ok (o, key) ->
  subscriptions cl !! key = None ->
  let r1 := Subscriptions.subscribe broker arg cl in
  let r2 := Subscriptions.subscribe broker arg r1.2 in
  let n := uuid_counter cl in
  let request1 := subscribeRequest o (uuid "sub" n) (sessionToken cl) in
  let request2 := subscribeRequest o (uuid "sub" (S n)) (sessionToken cl) in
  exists m1 m2,
    first_relevant [SubscribeResponse] (req_requestId request1) (broker request1)
    = Some m1
    /\ first_relevant [SubscribeResponse] (req_requestId request2) (broker request2)
       = Some m2
    /\ r1.1 = Failed (mkError (res_errorMessage m1) (Some (res_errorCode m1)))
    /\ r2.1 = Failed (mkError (res_errorMessage m2) (Some (res_errorCode m2)))
    /\ sent (connection r2.2) = sent (connection cl) ++ [request1; request2]
    /\ Subscriptions.count arg r2.2 = Ok 0%nat.
Proof.
  intros Href Hwf Hkey Hnone r1 r2 n request1 request2.
  subst r1 r2 n request1 request2.
  destruct (Subscriptions_subscribe_refused arg o key cl Href Hwf Hkey)
    as (m1 & c1 & Hf1 & -> & Hsent1 & Hwf1); [by rewrite Hnone..|].
  rewrite Hnone in *.
  cbn [fst snd default from_option id Subscription.new sub_options streams aborted
       emitted] in *.
  set (cl1 := mkClient c1 _ _ _ _).
  destruct (Subscriptions_subscribe_refused arg o key cl1 Href Hwf1 Hkey)
    as (m2 & c2 & Hf2 & -> & Hsent2 & Hwf2);
    [by cbn [subscriptions cl1]; rewrite lookup_insert_eq..|].
  cbn [subscriptions cl1] in *. rewrite lookup_insert_eq in *.
  cbn [fst snd default from_option id sub_options streams aborted emitted
       sessionToken uuid_counter iterator_counter connection cl1] in *.
  exists m1, m2. split; [done|]. split; [done|]. split; [done|]. split; [done|].
  split.
  { rewrite Hsent2, Hsent1. by rewrite <- app_assoc. }
  unfold Subscriptions.count, Subscriptions.get. rewrite Hkey.
  cbn [mbind result_bind snd subscriptions]. by rewrite lookup_insert_eq.
Qed.

Lemma reply_of_silent (t : MsgType) (request : Request) (types : list MsgType) :
  silent broker t -> req_type request = t -> PAIRS t = Some types ->
  reply_of types (req_requestId request) (broker request) = Never.
Proof.
  intros Hs Hty Hp. unfold reply_of. by rewrite (Hs request types Hty Hp).
Qed.

Lemma set_subscription_same (key : string) (s : Subscription) (cl : Client) :
  subscriptions cl !! key = Some s -> set_subscription key s cl = cl.
Proof.
  intros Hs. unfold set_subscription. rewrite insert_id by done. by destruct cl.
Qed.

Lemma Subscription_subscribe_silent (s : Subscription) (cl : Client) :
  silent broker SubscribeRequest ->
  wf_conn (connection cl) = true ->
  sendSubscribe_cache s = None -> stalled s = false ->
  exists c3,
    Subscription.subscribe broker s cl
    = (Never,
       mkSubscription (sub_options s) None None (streams s) (aborted s) true (emitted s),
       mkClient c3 (sessionToken cl) (S (uuid_counter cl)) (iterator_counter cl)
                (subscriptions cl))
    /\ sent c3 = sent (connection cl)
                  ++ [subscribeRequest (sub_options s) (uuid "sub" (uuid_counter cl))
                                       (sessionToken cl)]
    /\ wf_conn c3 = true.
Proof.
  intros Hsil Hwf Hc Hst.
  destruct (subscribe_spec broker (sub_options s) cl Hwf) as (c3 & Heq & Hsent & Hwf3).
  rewrite (reply_of_silent SubscribeRequest
             (subscribeRequest (sub_options s) (uuid "sub" (uuid_counter cl))
                               (sessionToken cl))
             [SubscribeResponse] Hsil eq_refl eq_refl) in Heq.
  exists c3. split; [|done].
  destruct s as [opts sc uc strs ab st em]. simpl in *. subst.
  unfold Subscription.subscribe, Subscription.subscribe_task, Subscription.sendSubscribe.
  cbn -[subscribe]. rewrite Heq. reflexivity.
Qed.

(** X15: a subscribe whose request is never answered never settles,
    and it blocks the queue of the key's subscription: every later
    [subscribe] or [unsubscribe] for the key never settles either and
    puts nothing on the wire. *)
Theorem unanswered_subscribe_stalls (arg : OptionsArg) (o : Options) (key : string)
    (cl : Client) :
  silent broker SubscribeRequest ->
  wf_conn (connection cl) = true ->
  Subscriptions.key_of arg = Ok (o, key) ->
  subscriptions cl !! key = None ->
  let r1 := Subscriptions.subscribe broker arg cl in
  r1.1 = Never
  /\ sent (connection r1.2)
     = sent (connection cl)
       ++ [subscribeRequest o (uuid "sub" (uuid_counter cl)) (sessionToken cl)]
  /\ forall arg', names_key key arg' ->
       Subscriptions.subscribe broker arg' r1.2 = (Never, r1.2)
       /\ Subscriptions.unsubscribe broker arg' r1.2 = (Never, r1.2).
Proof.
  intros Hsil Hwf Hkey Hnone r1.
  assert (exists c3,
            r1 = (Never,
                  mkClient c3 (sessionToken cl) (S (uuid_counter cl))
                    (iterator_counter cl)
                    (<[key := mkSubscription o None None [] false true []]>
                       (subscriptions cl)))
            /\ sent c3 = sent (connection cl)
                  ++ [subscribeRequest o (uuid "sub" (uuid_counter cl))
                                       (sessionToken cl)]) as (c3 & -> & Hsent).
  { subst r1. unfold Subscriptions.subscribe, Subscriptions.lookup_or_create.
    rewrite Hkey, Hnone. unfold Subscriptions.run_subscribe.
    cbn [subscriptions set_subscription]. rewrite lookup_insert_eq.
    destruct (Subscription_subscribe_silent (Subscription.new o)
                (set_subscription key (Subscription.new o) cl) Hsil Hwf eq_refl eq_refl)
      as (c3 & -> & Hsent & _).
    exists c3. split; [|done]. cbn. unfold set_subscription. cbn.
    by rewrite insert_insert_eq. }
  cbn [fst snd connection]. split; [done|]. split; [done|].
  intros arg' [o' Hkey']. split.
  - unfold Subscriptions.subscribe, Subscriptions.lookup_or_create.
    rewrite Hkey'. cbn [subscriptions]. rewrite lookup_insert_eq.
    unfold Subscriptions.run_subscribe. cbn [subscriptions]. rewrite lookup_insert_eq.
    cbn. f_equal. unfold set_subscription. cbn. by rewrite insert_insert_eq.
  - unfold Subscriptions.unsubscribe. rewrite Hkey'. cbn [subscriptions].
    by rewrite lookup_insert_eq.
Qed.
End SubscriptionRuns.

Lemma refusingBroker_refuses : refuses refusingBroker SubscribeRequest.
Proof.
  intros request Hty. exists [SubscribeResponse].
  exists (mkResponse ErrorResponse (req_requestId request) "NOT_FOUND" "no such stream").
  repeat split. unfold first_relevant, refusingBroker. cbn [List.find].
  unfold relevant. cbn [res_requestId res_type].
  rewrite !bool_decide_eq_true_2; [done|by right|done].
Qed.

Lemma silentBroker_silent : silent silentBroker SubscribeRequest.
Proof. by intros request types _ _. Qed.

Lemma resubscribe_round_trip_witness :
  let o := mkOptions (Some "stream1") (Some 0) None None None None None in
  let cl := new_client "session-token" in
  let r1 := Subscriptions.subscribe mockBroker (ArgString "stream1") cl in
  let r2 := Subscriptions.unsubscribe mockBroker (ArgString "stream1") r1.2 in
  let r3 := Subscriptions.subscribe mockBroker (ArgString "stream1") r2.2 in
  r1.1 = Fulfilled 0%nat
  /\ r2.1 = Fulfilled ()
  /\ r3.1 = Fulfilled 1%nat
  /\ sent (connection r3.2)
     = [] ++ [subscribeRequest o "sub.0" "session-token";
              unsubscribeRequest o "unsub.1" "session-token";
              subscribeRequest o "sub.2" "session-token"]
  /\ Subscriptions.count (ArgString "stream1") r1.2 = Ok 1%nat
  /\ Subscriptions.count (ArgString "stream1") r2.2 = Ok 0%nat
  /\ Subscriptions.count (ArgString "stream1") r3.2 = Ok 1%nat
  /\ subscribed_at "stream1|0" r3.2.
Proof.
  intros o cl.
  apply (resubscribe_round_trip mockBroker (ArgString "stream1") o "stream1|0" cl).
  - apply mockBroker_acknowledges_subscribe.
  - apply mockBroker_acknowledges_unsubscribe.
  - reflexivity.
  - reflexivity.
  - reflexivity.
Defined.

Lemma refused_subscribe_not_cached_witness :
  let o := mkOptions (Some "stream1") (Some 0) None None None None None in
  let cl := new_client "session-token" in
  let r1 := Subscriptions.subscribe refusingBroker (ArgString "stream1") cl in
  let r2 := Subscriptions.subscribe refusingBroker (ArgString "stream1") r1.2 in
  let request1 := subscribeRequest o "sub.0" "session-token" in
  let request2 := subscribeRequest o "sub.1" "session-token" in
  exists m1 m2,
    first_relevant [SubscribeResponse] (req_requestId request1) (refusingBroker request1)
    = Some m1
    /\ first_relevant [SubscribeResponse] (req_requestId request2)
         (refusingBroker request2)
       = Some m2
    /\ r1.1 = Failed (mkError (res_errorMessage m1) (Some (res_errorCode m1)))
    /\ r2.1 = Failed (mkError (res_errorMessage m2) (Some (res_errorCode m2)))
    /\ sent (connection r2.2) = [] ++ [request1; request2]
    /\ Subscriptions.count (ArgString "stream1") r2.2 = Ok 0%nat.
Proof.
  intros o cl.
  apply (refused_subscribe_not_cached refusingBroker (ArgString "stream1") o
           "stream1|0" cl).
  - apply refusingBroker_refuses.
  - reflexivity.
  - reflexivity.
  - reflexivity.
Defined.

Lemma unanswered_subscribe_stalls_witness :
  let o := mkOptions (Some "stream1") (Some 0) None None None None None in
  let cl := new_client "session-token" in
  let r1 := Subscriptions.subscribe silentBroker (ArgString "stream1") cl in
  r1.1 = Never
  /\ sent (connection r1.2) = [] ++ [subscribeRequest o "sub.0" "session-token"]
  /\ forall arg', names_key "stream1|0" arg' ->
       Subscriptions.subscribe silentBroker arg' r1.2 = (Never, r1.2)
       /\ Subscriptions.unsubscribe silentBroker arg' r1.2 = (Never, r1.2).
Proof.
  intros o cl.
  apply (unanswered_subscribe_stalls silentBroker (ArgString "stream1") o
           "stream1|0" cl).
  - apply silentBroker_silent.
  - reflexivity.
  - reflexivity.
  - reflexivity.
Defined.
